(** * Record stores of [data-structures-algorithms.c]

    A shallow embedding of the record-store code of
    [src/01_Languages/C/data-structures-algorithms.c]: the [Developer]
    record and its validator, the linked list, the growable array with its
    quicksort, and the chained hash table.

    Modelling conventions.
    - A C [int] is an integer of [Z]. The doubling of the capacity and
      the increment of the size of the dynamic array check the range of
      [int]: beyond [INT_MAX] the signed overflow is undefined behaviour,
      [Undef]. The size of the linked list and the indices of the sort are
      not cut off: they stay below the number of records held. The
      remainder and the conversion of an [int] to [unsigned int] in [hash]
      are written out, modulo [2^32].
    - A C [float] is a [spec_float] of the IEEE-754 specification of the
      Standard Library, compared with [SFleb] and [SFltb]; the values of
      the C type are those that satisfy [is_binary32].
    - A [char] array is the [string] of its bytes; the C string it holds
      stops at the first NUL byte ([cstr]).
    - An access outside an array is undefined behaviour in C and yields
      [Undef].
    - [printf] appends an [event] to the console log that the stateful
      functions thread through.
    - [safeMalloc] and [realloc] of a positive number of bytes are taken
      to succeed. [realloc] of no bytes, or of a negative number of
      records, which is a huge [size_t], returns [NULL]; [resizeArray] then
      leaves by [exit(EXIT_FAILURE)], which is [Exit]. *)

From Stdlib Require Import ZArith Lia Bool List Ascii String.
From Stdlib Require Import Floats.SpecFloat.
From stdpp Require Import base list strings gmap.

Local Open Scope Z_scope.

(** ** Results of fallible code

    [Ret a]: the code returns [a]. [Undef]: undefined behaviour.
    [NoFuel]: the fuel of a recursive model ran out. [Exit]: the code
    ended the process with [exit(EXIT_FAILURE)]. *)

Inductive res (A : Type) : Type :=
| Ret (a : A)
| Undef
| NoFuel
| Exit.

Arguments Ret {A} a.
Arguments Undef {A}.
Arguments NoFuel {A}.
Arguments Exit {A}.

Definition res_bind {A B : Type} (m : res A) (k : A -> res B) : res B :=
  match m with
  | Ret a => k a
  | Undef => Undef
  | NoFuel => NoFuel
  | Exit => Exit
  end.

Declare Scope res_scope.
Delimit Scope res_scope with res.
Notation "x <- m ;; k" := (res_bind m (fun x => k))
  (at level 100, m at next level, right associativity) : res_scope.

(** ** The console log and the monad of the printing functions *)

Definition float : Type := spec_float.

Definition is_binary32 (f : float) : Prop := valid_binary 24 128 f = true.

Definition is_nan (f : float) : bool :=
  match f with
  | S754_nan => true
  | _ => false
  end.

(** [0] converted to [float] *)
Definition float_zero : float := S754_zero false.

(** [a >= b] and [a < b] on floats *)
Definition float_ge (a b : float) : bool := SFleb b a.
Definition float_lt (a b : float) : bool := SFltb a b.

Record Developer : Type := mkDeveloper {
  dev_id : Z;
  dev_name : string;
  dev_email : string;
  dev_skills : string;
  dev_salary : float
}.

Definition NUL : ascii := Ascii.zero.

(** The C string held by a [char] array: the bytes before the first NUL. *)
Fixpoint cstr (s : string) : string :=
  match s with
  | EmptyString => EmptyString
  | String c s' => if Ascii.eqb c NUL then EmptyString else String c (cstr s')
  end.

Fixpoint strlen (s : string) : Z :=
  match s with
  | EmptyString => 0
  | String c s' => if Ascii.eqb c NUL then 0 else 1 + strlen s'
  end.

(** [strchr s c]: offset of the first [c] in the C string, [None] for the
    null pointer. As in C the terminator itself is found when [c] is NUL. *)
Fixpoint strchr (s : string) (c : ascii) : option Z :=
  match s with
  | EmptyString => if Ascii.eqb c NUL then Some 0 else None
  | String a s' =>
      if Ascii.eqb a c then Some 0
      else if Ascii.eqb a NUL then None
      else option_map Z.succ (strchr s' c)
  end.

Inductive event : Type :=
| EvAdded (name : string)
| EvDisplayHeader
| EvDisplay (index : Z) (dev : Developer)
| EvResized (newCapacity : Z)
| EvSorted
| EvInvalid
| EvDuplicate (id : Z).

Definition M (A : Type) : Type := list event -> res (A * list event).

Definition M_ret {A : Type} (a : A) : M A := fun out => Ret (a, out).

Definition M_bind {A B : Type} (m : M A) (k : A -> M B) : M B :=
  fun out =>
    match m out with
    | Ret (a, out') => k a out'
    | Undef => Undef
    | NoFuel => NoFuel
    | Exit => Exit
    end.

Definition printf (e : event) : M unit := fun out => Ret (tt, out ++ [e]).

Definition lift {A : Type} (r : res A) : M A :=
  fun out =>
    match r with
    | Ret a => Ret (a, out)
    | Undef => Undef
    | NoFuel => NoFuel
    | Exit => Exit
    end.

Declare Scope M_scope.
Delimit Scope M_scope with M.
Notation "x <- m ;; k" := (M_bind m (fun x => k))
  (at level 100, m at next level, right associativity) : M_scope.
Notation "m ;;; k" := (M_bind m (fun _ => k))
  (at level 100, right associativity) : M_scope.

(** ** 4. Linked list *)

Record LinkedList : Type := mkLinkedList {
  ll_head : list Developer;   (* the chain of nodes, from [head] on *)
  ll_size : Z
}.

Definition createLinkedList : LinkedList :=
  {| ll_head := []; ll_size := 0 |}.

Definition insertDeveloper (list : LinkedList) (dev : Developer) : M LinkedList :=
  (let list' := {| ll_head := dev :: ll_head list; ll_size := ll_size list + 1 |} in
   printf (EvAdded (cstr (dev_name dev))) ;;;
   M_ret list')%M.

Fixpoint displayDevelopers_loop (current : list Developer) (index : Z) : M unit :=
  match current with
  | [] => M_ret tt
  | d :: next => (printf (EvDisplay index d) ;;; displayDevelopers_loop next (index + 1))%M
  end.

Definition displayDevelopers (list : LinkedList) : M unit :=
  (printf EvDisplayHeader ;;; displayDevelopers_loop (ll_head list) 1)%M.

Fixpoint findDeveloperById_loop (current : list Developer) (id : Z) : option Developer :=
  match current with
  | [] => None
  | d :: next => if dev_id d =? id then Some d else findDeveloperById_loop next id
  end.

(** The result stands for the pointer into the node ([None] is [NULL]). *)
Definition findDeveloperById (list : LinkedList) (id : Z) : option Developer :=
  findDeveloperById_loop (ll_head list) id.

(** ** 10. Validation *)

Definition validateDeveloper (dev : option Developer) : bool :=
  match dev with
  | None => false
  | Some d =>
      if dev_id d <=? 0 then false
      else if strlen (dev_name d) =? 0 then false
      else if strlen (dev_email d) =? 0 then false
      else if float_lt (dev_salary d) float_zero then false
      else match strchr (dev_email d) "@" with
           | None => false
           | Some _ => true
           end
  end.

Definition safeDeveloperInsert (list : LinkedList) (dev : Developer) : M (Z * LinkedList) :=
  (if negb (validateDeveloper (Some dev)) then
     printf EvInvalid ;;; M_ret (-1, list)
   else
     match findDeveloperById list (dev_id dev) with
     | Some _ => printf (EvDuplicate (dev_id dev)) ;;; M_ret (-1, list)
     | None => list' <- insertDeveloper list dev ;; M_ret (0, list')
     end)%M.

(** ** 5. Dynamic array

    [arr_developers] lists the initialised slots of the buffer, slot 0
    first; the slots from [arr_size] up to [arr_capacity] are allocated
    and hold no value yet. *)

Record DynamicArray : Type := mkDynamicArray {
  arr_developers : list Developer;
  arr_capacity : Z;
  arr_size : Z
}.

Definition createDynamicArray (initialCapacity : Z) : DynamicArray :=
  {| arr_developers := []; arr_capacity := initialCapacity; arr_size := 0 |}.

Definition INT_MIN : Z := -2147483648.
Definition INT_MAX : Z := 2147483647.

(** The value of an [int] expression: outside the range of [int] the
    signed overflow is undefined behaviour. *)
Definition int_value (z : Z) : res Z :=
  if (INT_MIN <=? z) && (z <=? INT_MAX) then Ret z else Undef.

(** [newCapacity] is an [int]: the doubling overflows beyond [INT_MAX].
    [realloc] keeps the contents of the old buffer. For a new capacity
    that is not positive it returns [NULL]: the function writes its
    message to [stderr] and ends the process before it prints the new
    capacity. *)
Definition resizeArray (arr : DynamicArray) : M DynamicArray :=
  (newCapacity <- lift (int_value (arr_capacity arr * 2)) ;;
   if newCapacity <=? 0 then lift Exit
   else
     printf (EvResized newCapacity) ;;;
     M_ret {| arr_developers := arr_developers arr;
              arr_capacity := newCapacity;
              arr_size := arr_size arr |})%M.

(** [buf[idx] = dev] in a buffer of [capacity] slots: an initialised slot is
    overwritten, the first free slot becomes initialised. *)
Definition store_slot (buf : list Developer) (capacity idx : Z) (dev : Developer)
  : res (list Developer) :=
  if (0 <=? idx) && (idx <? capacity) then
    if idx <? Z.of_nat (length buf) then Ret (<[Z.to_nat idx := dev]> buf)
    else if idx =? Z.of_nat (length buf) then Ret (buf ++ [dev])
    else Undef
  else Undef.

Definition addDeveloper (arr : DynamicArray) (dev : Developer) : M DynamicArray :=
  (arr1 <- (if arr_size arr >=? arr_capacity arr then resizeArray arr else M_ret arr) ;;
   buf <- lift (store_slot (arr_developers arr1) (arr_capacity arr1) (arr_size arr1) dev) ;;
   size <- lift (int_value (arr_size arr1 + 1)) ;;
   M_ret {| arr_developers := buf;
            arr_capacity := arr_capacity arr1;
            arr_size := size |})%M.

(** ** 6. Quick sort *)

(** [arr[k]] read and written, within the bounds of the array. *)
Definition rd (arr : list Developer) (k : Z) : res Developer :=
  if (0 <=? k) && (k <? Z.of_nat (length arr)) then
    match arr !! Z.to_nat k with
    | Some d => Ret d
    | None => Undef
    end
  else Undef.

Definition wr (arr : list Developer) (k : Z) (d : Developer) : res (list Developer) :=
  if (0 <=? k) && (k <? Z.of_nat (length arr)) then Ret (<[Z.to_nat k := d]> arr)
  else Undef.

(** The [for] loop of [partition]; [n] bounds the iterations left. *)
Fixpoint partition_loop (n : nat) (pivot : float) (high : Z)
    (arr : list Developer) (i j : Z) : res (list Developer * Z) :=
  if j <=? high - 1 then
    match n with
    | O => NoFuel
    | S n' =>
        (aj <- rd arr j ;;
         if float_ge (dev_salary aj) pivot then
           let i := i + 1 in
           temp <- rd arr i ;;
           aj <- rd arr j ;;
           arr <- wr arr i aj ;;
           arr <- wr arr j temp ;;
           partition_loop n' pivot high arr i (j + 1)
         else partition_loop n' pivot high arr i (j + 1))%res
    end
  else Ret (arr, i).

Definition partition (arr : list Developer) (low high : Z) : res (list Developer * Z) :=
  (ah <- rd arr high ;;
   let pivot := dev_salary ah in
   let i := low - 1 in
   r <- partition_loop (Z.to_nat (high - low)) pivot high arr i low ;;
   let arr := fst r in
   let i := snd r in
   temp <- rd arr (i + 1) ;;
   ah <- rd arr high ;;
   arr <- wr arr (i + 1) ah ;;
   arr <- wr arr high temp ;;
   Ret (arr, i + 1))%res.

(** [fuel] bounds the depth of the recursion. *)
Fixpoint quickSort (fuel : nat) (arr : list Developer) (low high : Z)
  : res (list Developer) :=
  if low <? high then
    match fuel with
    | O => NoFuel
    | S fuel' =>
        (r <- partition arr low high ;;
         let pi := snd r in
         arr <- quickSort fuel' (fst r) low (pi - 1) ;;
         quickSort fuel' arr (pi + 1) high)%res
    end
  else Ret arr.

Definition sortDevelopersBySalary (arr : DynamicArray) : M DynamicArray :=
  (if arr_size arr >? 1 then
     devs <- lift (quickSort (Z.to_nat (arr_size arr)) (arr_developers arr)
                     0 (arr_size arr - 1)) ;;
     printf EvSorted ;;;
     M_ret {| arr_developers := devs;
              arr_capacity := arr_capacity arr;
              arr_size := arr_size arr |}
   else M_ret arr)%M.

(** ** 7. Hash table *)

Definition HASH_TABLE_SIZE : Z := 101.

Record HashNode : Type := mkHashNode {
  hn_key : Z;
  hn_value : Developer
}.

Record HashTable : Type := mkHashTable {
  buckets : list (list HashNode)
}.

(** [key % HASH_TABLE_SIZE] is the remainder of the division that truncates
    towards zero; [return] converts it to [unsigned int]. *)
Definition hash (key : Z) : Z := (Z.rem key HASH_TABLE_SIZE) mod 2 ^ 32.

Definition createHashTable : HashTable :=
  {| buckets := replicate (Z.to_nat HASH_TABLE_SIZE) [] |}.

Definition hashInsert (table : HashTable) (key : Z) (dev : Developer) : res HashTable :=
  let index := hash key in
  if index <? HASH_TABLE_SIZE then
    match buckets table !! Z.to_nat index with
    | Some chain =>
        let newNode := {| hn_key := key; hn_value := dev |} in
        Ret {| buckets := <[Z.to_nat index := newNode :: chain]> (buckets table) |}
    | None => Undef
    end
  else Undef.

Fixpoint hashSearch_loop (current : list HashNode) (key : Z) : option Developer :=
  match current with
  | [] => None
  | n :: next => if hn_key n =? key then Some (hn_value n) else hashSearch_loop next key
  end.

Definition hashSearch (table : HashTable) (key : Z) : res (option Developer) :=
  let index := hash key in
  if index <? HASH_TABLE_SIZE then
    match buckets table !! Z.to_nat index with
    | Some chain => Ret (hashSearch_loop chain key)
    | None => Undef
    end
  else Undef.

(** ** The callers' loops and the vocabulary of the properties *)

(** [for (i...) insertDeveloper(devList, developers[i])] *)
Fixpoint insertDevelopers (devList : LinkedList) (devs : list Developer) : M LinkedList :=
  match devs with
  | [] => M_ret devList
  | d :: rest => (devList' <- insertDeveloper devList d ;; insertDevelopers devList' rest)%M
  end.

(** [for (i...) addDeveloper(devArray, developers[i])] *)
Fixpoint addDevelopers (devArray : DynamicArray) (devs : list Developer) : M DynamicArray :=
  match devs with
  | [] => M_ret devArray
  | d :: rest => (devArray' <- addDeveloper devArray d ;; addDevelopers devArray' rest)%M
  end.

(** The three cases of a safe insertion. *)
Inductive insert_case : Type :=
| CaseInvalid
| CaseDuplicate
| CaseSuccess.

Definition insert_case_of (list : LinkedList) (dev : Developer) : insert_case :=
  if negb (validateDeveloper (Some dev)) then CaseInvalid
  else match findDeveloperById list (dev_id dev) with
       | Some _ => CaseDuplicate
       | None => CaseSuccess
       end.

(** The [int] a run of [safeDeveloperInsert] returns. *)
Definition return_code (r : res (Z * LinkedList * list event)) : option Z :=
  match r with
  | Ret (code, _, _) => Some code
  | _ => None
  end.

Fixpoint string_mem (c : ascii) (s : string) : bool :=
  match s with
  | EmptyString => false
  | String a s' => Ascii.eqb a c || string_mem c s'
  end.

(** Validity of a record in the words of the specification. *)
Definition isValid_spec (d : Developer) : Prop :=
  0 < dev_id d /\
  cstr (dev_name d) <> EmptyString /\
  cstr (dev_email d) <> EmptyString /\
  string_mem "@" (cstr (dev_email d)) = true /\
  float_ge (dev_salary d) float_zero = true.

(** The float of an integer constant of the program text. *)
Definition float_of_Z (z : Z) : float := binary_normalize 24 128 z 0 false.

(** The events a traversal of a chain prints, positions counted from [index]. *)
Fixpoint display_events (chain : list Developer) (index : Z) : list event :=
  match chain with
  | [] => []
  | d :: next => EvDisplay index d :: display_events next (index + 1)
  end.

(** The store invariant of the dynamic array. *)
Definition wf_array (arr : DynamicArray) : Prop :=
  arr_size arr = Z.of_nat (length (arr_developers arr)) /\
  arr_size arr <= arr_capacity arr.

Definition salaries (devs : list Developer) : list float := map dev_salary devs.

(** Read from index 0 upward, every salary is [>=] each one after it. *)
Definition non_increasing (fs : list float) : Prop :=
  forall (i j : nat) (a b : float),
    (i < j)%nat -> fs !! i = Some a -> fs !! j = Some b -> float_ge a b = true.

Definition no_nan (devs : list Developer) : Prop :=
  forall d, d ∈ devs -> is_nan (dev_salary d) = false.

(** ** 9. Statistics and comparison functions *)

(** [a > b] on floats; binary32 addition and division, rounding to nearest
    even; an [int] converted to [float]. *)
Definition float_gt (a b : float) : bool := SFltb b a.
Definition float_add (a b : float) : float := SFadd 24 128 a b.
Definition float_div (a b : float) : float := SFdiv 24 128 a b.
Definition float_of_int (z : Z) : float := binary_normalize 24 128 z 0 false.

Record SalaryStats : Type := mkSalaryStats {
  st_average : float;
  st_min : float;
  st_max : float;
  st_count : Z
}.

(** The [for] loop of [calculateSalaryStats]; [n] bounds the iterations
    left, the result is [total], [stats.min] and [stats.max]. *)
Fixpoint calculateSalaryStats_loop (n : nat) (devs : list Developer) (size i : Z)
    (total smin smax : float) : res (float * float * float) :=
  if i <? size then
    match n with
    | O => NoFuel
    | S n' =>
        (d <- rd devs i ;;
         let salary := dev_salary d in
         let total := float_add total salary in
         let smin := if float_lt salary smin then salary else smin in
         let smax := if float_gt salary smax then salary else smax in
         calculateSalaryStats_loop n' devs size (i + 1) total smin smax)%res
    end
  else Ret (total, smin, smax).

Definition calculateSalaryStats (arr : DynamicArray) : res SalaryStats :=
  let stats := {| st_average := float_zero; st_min := float_zero;
                  st_max := float_zero; st_count := 0 |} in
  if arr_size arr =? 0 then Ret stats
  else
    (d0 <- rd (arr_developers arr) 0 ;;
     d0' <- rd (arr_developers arr) 0 ;;
     r <- calculateSalaryStats_loop (Z.to_nat (arr_size arr)) (arr_developers arr)
            (arr_size arr) 0 float_zero (dev_salary d0) (dev_salary d0') ;;
     let '(total, smin, smax) := r in
     Ret {| st_average := float_div total (float_of_int (arr_size arr));
            st_min := smin; st_max := smax; st_count := arr_size arr |})%res.

(** The two records behind the [const void*] arguments. *)
Definition compareBySalary (a b : Developer) : Z :=
  if float_gt (dev_salary a) (dev_salary b) then -1
  else if float_lt (dev_salary a) (dev_salary b) then 1
  else 0.

(** ** 8. File I/O

    The files are those of the snapshot format: the [int] written first,
    then whole blocks of [sizeof(Developer)] bytes, each the image of a
    record, read back by the same program. The file system is a finite
    map from names to such files; [fopen] for writing succeeds on the
    names [fs_writable] accepts, [fopen] for reading on the names that have
    a file; [fwrite] and [fclose] are taken to succeed. The messages of
    the two functions are [io_event]s. *)

Record snapshot : Type := mkSnapshot {
  snap_count : Z;
  snap_blocks : list Developer
}.

Record FS : Type := mkFS {
  fs_files : gmap string snapshot;
  fs_writable : string -> bool
}.

Inductive io_event : Type :=
| IoWriteError (filename : string)
| IoSaved (filename : string)
| IoReadError (filename : string)
| IoLoaded (filename : string).

(** [fwrite] of [arr->size] records reads the slots [0..size-1] of the
    buffer, which have an image when they hold a record; the call
    overwrites the file. *)
Definition saveDevelopersToFile (fs : FS) (arr : DynamicArray) (filename : string)
  : res (FS * list io_event) :=
  if fs_writable fs filename then
    if (0 <=? arr_size arr) && (arr_size arr <=? Z.of_nat (length (arr_developers arr)))
    then
      let file := {| snap_count := arr_size arr;
                     snap_blocks := take (Z.to_nat (arr_size arr)) (arr_developers arr) |} in
      Ret ({| fs_files := <[filename := file]> (fs_files fs);
              fs_writable := fs_writable fs |},
           [IoSaved filename])
    else Undef
  else Ret (fs, [IoWriteError filename]).

(** [fread] fills the slots with the whole blocks the file has, at most
    [size] of them, and its result is not looked at; [arr->size] is set to
    the [int] read first. [None] is the null pointer. A negative [size]
    is no size [safeMalloc] can serve. *)
Definition loadDevelopersFromFile (fs : FS) (filename : string)
  : res (option DynamicArray * list io_event) :=
  match fs_files fs !! filename with
  | None => Ret (None, [IoReadError filename])
  | Some file =>
      let size := snap_count file in
      if size <? 0 then Undef
      else
        let arr := createDynamicArray size in
        Ret (Some {| arr_developers := take (Z.to_nat size) (snap_blocks file);
                     arr_capacity := arr_capacity arr;
                     arr_size := size |},
             [IoLoaded filename])
  end.

(** ** 9. String manipulation

    The C string [processSkillString] works on is the list of its
    characters. [strtok] overwrites the delimiter that ends a token and
    keeps the place after it for the next call; the model passes this
    place, [saved], along. *)

Definition is_delim (delim : string) (c : ascii) : bool := string_mem c delim.

(** [strtok] first skips the delimiters in front of the token. *)
Fixpoint skip_delims (delim : string) (s : list ascii) : list ascii :=
  match s with
  | [] => []
  | c :: s' => if is_delim delim c then skip_delims delim s' else s
  end.

(** The token up to the next delimiter, and the place after it. *)
Fixpoint token_end (delim : string) (s : list ascii) : list ascii * list ascii :=
  match s with
  | [] => ([], [])
  | c :: s' =>
      if is_delim delim c then ([], s')
      else let '(token, saved) := token_end delim s' in (c :: token, saved)
  end.

(** [strtok]: [None] is the null pointer returned when no token is left. *)
Definition strtok (delim : string) (s : list ascii) : option (list ascii * list ascii) :=
  match skip_delims delim s with
  | [] => None
  | c :: s' => Some (token_end delim (c :: s'))
  end.

(** The loop that moves [token] past the spaces in front. *)
Fixpoint skip_spaces (token : list ascii) : list ascii :=
  match token with
  | [] => []
  | c :: token' => if Ascii.eqb c " " then skip_spaces token' else token
  end.

(** The loop that, while [len > 0] and [token[len-1]] is a space, writes
    NUL to [token[len-1]] and decrements [len]: the token cut to its final
    length. *)
Fixpoint rtrim (token : list ascii) (len : nat) : list ascii :=
  match len with
  | O => []
  | S len' =>
      match token !! len' with
      | Some c => if Ascii.eqb c " " then rtrim token len' else take len token
      | None => take len token
      end
  end.

(** The [while] loop of [processSkillString]: [tok] is the result of the
    last [strtok], [result] the rows written so far; [strcpy] into a row of
    50 bytes needs a token shorter than 50. *)
Fixpoint processSkillString_loop (n : nat) (tok : option (list ascii * list ascii))
    (result : list string) (count : Z) : res (list string * Z) :=
  match tok with
  | None => Ret (result, count)
  | Some (token, saved) =>
      if count <? 10 then
        match n with
        | O => NoFuel
        | S n' =>
            let token := skip_spaces token in
            let token := rtrim token (length token) in
            if Z.of_nat (length token) <? 50 then
              processSkillString_loop n' (strtok "," saved)
                (result ++ [string_of_list_ascii token]) (count + 1)
            else Undef
        end
      else Ret (result, count)
  end.

(** The rows written into [result] and the final [*count]. *)
Definition processSkillString (skills : string) : res (list string * Z) :=
  processSkillString_loop 10 (strtok "," (list_ascii_of_string (cstr skills))) [] 0.

(** A row [processSkillString] can write: no comma and no NUL in it, no
    space in front or at the end, shorter than 50 characters. *)
Definition trimmed_skill (row : string) : Prop :=
  let t := list_ascii_of_string row in
  (forall c, c ∈ t -> c <> ","%char /\ c <> NUL) /\
  head t <> Some " "%char /\
  last t <> Some " "%char /\
  (length t < 50)%nat.

(** Tokens joined by a comma and a space, as the skill strings of [main]. *)
Fixpoint join_tokens (l : list (list ascii)) : list ascii :=
  match l with
  | [] => []
  | t :: rest =>
      match rest with
      | [] => t
      | _ :: _ => t ++ ","%char :: " "%char :: join_tokens rest
      end
  end.

(** [for (i...) hashInsert(devHash, developers[i].id, developers[i])] *)
Fixpoint hashInserts (devHash : HashTable) (devs : list Developer) : res HashTable :=
  match devs with
  | [] => Ret devHash
  | d :: rest => (devHash' <- hashInsert devHash (dev_id d) d ;; hashInserts devHash' rest)%res
  end.

(** The invariants of the linked list: the recorded size is the length of
    the chain; no two nodes share an identity; every node passes the
    validator. *)
Definition wf_list (l : LinkedList) : Prop :=
  ll_size l = Z.of_nat (length (ll_head l)).

Definition unique_ids (chain : list Developer) : Prop :=
  NoDup (map dev_id chain).

Definition all_valid (chain : list Developer) : Prop :=
  forall d, d ∈ chain -> validateDeveloper (Some d) = true.

(** ** Vocabulary of the proofs *)

(** The array after one more record, appended with a doubling of the
    capacity when the array was full. *)
Definition appended (arr : DynamicArray) (dev : Developer) : DynamicArray :=
  {| arr_developers := arr_developers arr ++ [dev];
     arr_capacity := if arr_size arr =? arr_capacity arr then arr_capacity arr * 2
                     else arr_capacity arr;
     arr_size := arr_size arr + 1 |}.

(** The reallocations of a run of appends that has doubled the capacity
    [k] times. *)
Definition resize_events (C : Z) (k : nat) : list event :=
  map (fun j : nat => EvResized (C * 2 ^ Z.of_nat j)) (seq 1 k).

(** One turn of the loop of [calculateSalaryStats] on the triple of
    [total], [stats.min] and [stats.max]. *)
Definition stats_step (acc : float * float * float) (d : Developer)
  : float * float * float :=
  let '(total, smin, smax) := acc in
  let salary := dev_salary d in
  (float_add total salary,
   if float_lt salary smin then salary else smin,
   if float_gt salary smax then salary else smax).

(** Away from NaN, [SFleb] is the lexicographic order of this key. *)
Definition float_key (f : float) : Z * Z * Z :=
  match f with
  | S754_zero _ => (0, 0, 0)
  | S754_infinity s => (if s then -2 else 2, 0, 0)
  | S754_nan => (0, 0, 0)
  | S754_finite s m e => if s then (-1, - e, - Z.pos m) else (1, e, Z.pos m)
  end.

Definition key_le (a b : Z * Z * Z) : Prop :=
  let '(a1, a2, a3) := a in
  let '(b1, b2, b3) := b in
  a1 < b1 \/ (a1 = b1 /\ (a2 < b2 \/ (a2 = b2 /\ a3 <= b3))).

(** The hash table has its [HASH_TABLE_SIZE] buckets. *)
Definition wf_table (table : HashTable) : Prop :=
  Z.of_nat (length (buckets table)) = HASH_TABLE_SIZE.

(** [arr[k]] for an integer index, [None] outside the array. *)
Definition lkp (arr : list Developer) (k : Z) : option Developer :=
  if 0 <=? k then arr !! Z.to_nat k else None.

Definition in_bounds (arr : list Developer) (k : Z) : Prop :=
  0 <= k < Z.of_nat (length arr).

Definition upd (arr : list Developer) (k : Z) (d : Developer) : list Developer :=
  <[Z.to_nat k := d]> arr.

(** The array after [arr[i]] and [arr[j]] have changed places. *)
Definition swap (arr : list Developer) (i j : Z) : list Developer :=
  match lkp arr i, lkp arr j with
  | Some di, Some dj => upd (upd arr i dj) j di
  | _, _ => arr
  end.

(** Every record in the slots [lo..hi] satisfies [P]. *)
Definition seg_all (P : Developer -> Prop) (arr : list Developer) (lo hi : Z) : Prop :=
  forall k d, lo <= k <= hi -> lkp arr k = Some d -> P d.

(** [arr'] differs from [arr] in the slots [lo..hi] only, and what these
    slots hold comes from the same slots of [arr]. *)
Definition within (lo hi : Z) (arr arr' : list Developer) : Prop :=
  length arr' = length arr /\
  (forall k, ~ (lo <= k <= hi) -> lkp arr' k = lkp arr k) /\
  (forall k d, lo <= k <= hi -> lkp arr' k = Some d ->
     exists k', lo <= k' <= hi /\ lkp arr k' = Some d).

(** The salaries of the slots [lo..hi] never go up. *)
Definition sorted_seg (arr : list Developer) (lo hi : Z) : Prop :=
  forall a b da db, lo <= a -> a < b -> b <= hi ->
    lkp arr a = Some da -> lkp arr b = Some db ->
    float_ge (dev_salary da) (dev_salary db) = true.

(** The salary of a record is a number, is [>=] the pivot, is [<=] it. *)
Definition sal_ok (d : Developer) : Prop := is_nan (dev_salary d) = false.
Definition sal_ge (pivot : float) (d : Developer) : Prop :=
  float_ge (dev_salary d) pivot = true.
Definition sal_le (pivot : float) (d : Developer) : Prop :=
  float_ge pivot (dev_salary d) = true.

(** The values of the C type [Developer]: a 32-bit identity, strings that
    end within their arrays, a binary32 salary. *)
Definition is_Developer (d : Developer) : Prop :=
  - 2 ^ 31 <= dev_id d < 2 ^ 31 /\
  strlen (dev_name d) < 50 /\
  strlen (dev_email d) < 100 /\
  strlen (dev_skills d) < 200 /\
  is_binary32 (dev_salary d).

(** ** Sample records and arrays *)

Definition dev_ok : Developer :=
  {| dev_id := 1; dev_name := "Bodheesh VC"; dev_email := "bodheesh@example.com";
     dev_skills := "JavaScript,TypeScript,React,Node.js,MongoDB";
     dev_salary := float_of_Z 85000 |}.

Definition dev_nan : Developer :=
  {| dev_id := 1; dev_name := "Ann"; dev_email := "ann@example.com";
     dev_skills := "C"; dev_salary := S754_nan |}.

Definition dev_bad : Developer :=
  {| dev_id := 0; dev_name := ""; dev_email := "nobody";
     dev_skills := ""; dev_salary := float_of_Z 0 |}.

Definition arr_demo : DynamicArray :=
  {| arr_developers :=
       [ {| dev_id := 1; dev_name := "Bodheesh VC"; dev_email := "bodheesh@example.com";
            dev_skills := ""; dev_salary := float_of_Z 85000 |};
         {| dev_id := 2; dev_name := "Alice Johnson"; dev_email := "alice@example.com";
            dev_skills := ""; dev_salary := float_of_Z 90000 |};
         {| dev_id := 3; dev_name := "Bob Smith"; dev_email := "bob@example.com";
            dev_skills := ""; dev_salary := float_of_Z 82000 |};
         {| dev_id := 4; dev_name := "Carol Davis"; dev_email := "carol@example.com";
            dev_skills := ""; dev_salary := float_of_Z 88000 |} ];
     arr_capacity := 4;
     arr_size := 4 |}.

(** [2 * 2^30 + 1] records for an array of capacity [2^30]. *)
Definition many_devs : list Developer :=
  replicate (Z.to_nat (2 * 1073741824 + 1)) dev_ok.

Definition arr_nan : DynamicArray :=
  {| arr_developers :=
       [ {| dev_id := 9; dev_name := "Nan"; dev_email := "nan@example.com";
            dev_skills := ""; dev_salary := S754_nan |};
         {| dev_id := 2; dev_name := "Two"; dev_email := "two@example.com";
            dev_skills := ""; dev_salary := float_of_Z 2 |};
         {| dev_id := 1; dev_name := "One"; dev_email := "one@example.com";
            dev_skills := ""; dev_salary := float_of_Z 1 |} ];
     arr_capacity := 4;
     arr_size := 3 |}.

(** * Properties *)

Ltac run_M := unfold M_bind, M_ret, printf, lift; simpl.
Ltac conj := repeat match goal with |- _ /\ _ => split end.

(** ** Strings *)

Lemma strlen_cstr (s : string) : strlen s = 0 <-> cstr s = EmptyString.
Proof.
  destruct s as [|c s]; simpl; [tauto|].
  destruct (Ascii.eqb c NUL); [tauto|].
  split; [|discriminate].
  assert (0 <= strlen s) by (clear; induction s as [|a s IH]; simpl;
    [lia | destruct (Ascii.eqb a NUL); lia]).
  lia.
Qed.

Lemma strchr_cstr (s : string) (c : ascii) :
  c <> NUL -> (strchr s c <> None <-> string_mem c (cstr s) = true).
Proof.
  intros Hc. induction s as [|a s IH]; simpl.
  - destruct (Ascii.eqb_spec c NUL); [contradiction|]. split; [congruence|discriminate].
  - destruct (Ascii.eqb_spec a NUL) as [->|Hn].
    + destruct (Ascii.eqb_spec NUL c); [congruence|]. simpl.
      split; [congruence|discriminate].
    + simpl. destruct (Ascii.eqb_spec a c); simpl.
      * split; [reflexivity|discriminate].
      * rewrite <- IH. destruct (strchr s c); simpl; split; congruence.
Qed.

(** ** Float comparison

    Away from NaN, [<=] on floats is the lexicographic order of a key of
    three integers, hence a total preorder. *)

Lemma SFleb_key (a b : float) :
  is_nan a = false -> is_nan b = false ->
  (SFleb a b = true <-> key_le (float_key a) (float_key b)).
Proof.
  intros Ha Hb. unfold SFleb, SFcompare.
  destruct a as [sa|sa| |sa ma ea], b as [sb|sb| |sb mb eb];
    try discriminate; try destruct sa; try destruct sb; simpl;
    try (split; [intros _; lia | reflexivity]);
    try (split; [discriminate | intros; exfalso; lia]);
    change (Pos.compare_cont Eq ma mb) with (Pos.compare ma mb);
    destruct (Z.compare_spec ea eb); simpl;
    try destruct (Pos.compare_spec ma mb); simpl;
    (split; [intros; try discriminate; lia | intros; try reflexivity; exfalso; lia]).
Qed.

Lemma SFltb_key (a b : float) :
  is_nan a = false -> is_nan b = false ->
  (SFltb a b = true <-> ~ key_le (float_key b) (float_key a)).
Proof.
  intros Ha Hb. unfold SFltb, SFcompare.
  destruct a as [sa|sa| |sa ma ea], b as [sb|sb| |sb mb eb];
    try discriminate; try destruct sa; try destruct sb; simpl;
    try (split; [intros _; lia | reflexivity]);
    try (split; [discriminate | intros; exfalso; lia]);
    change (Pos.compare_cont Eq ma mb) with (Pos.compare ma mb);
    destruct (Z.compare_spec ea eb); simpl;
    try destruct (Pos.compare_spec ma mb); simpl;
    (split; [intros; try discriminate; lia | intros; try reflexivity; exfalso; lia]).
Qed.

Lemma float_ge_nan_l (a b : float) : float_ge a b = true -> is_nan a = false.
Proof. unfold float_ge, SFleb, SFcompare. destruct a, b; simpl; congruence. Qed.

Lemma float_ge_nan_r (a b : float) : float_ge a b = true -> is_nan b = false.
Proof. unfold float_ge, SFleb, SFcompare. destruct a, b; simpl; congruence. Qed.

Lemma float_ge_refl (a : float) : is_nan a = false -> float_ge a a = true.
Proof.
  intros Ha. unfold float_ge. apply SFleb_key; trivial.
  unfold key_le. destruct (float_key a) as [[a1 a2] a3]. lia.
Qed.

Lemma float_ge_trans (a b c : float) :
  float_ge a b = true -> float_ge b c = true -> float_ge a c = true.
Proof.
  intros Hab Hbc.
  pose proof (float_ge_nan_l _ _ Hab) as Ha.
  pose proof (float_ge_nan_r _ _ Hab) as Hb.
  pose proof (float_ge_nan_r _ _ Hbc) as Hc.
  unfold float_ge in *.
  apply SFleb_key in Hab; trivial. apply SFleb_key in Hbc; trivial.
  apply SFleb_key; trivial. unfold key_le in *.
  destruct (float_key a) as [[a1 a2] a3], (float_key b) as [[b1 b2] b3],
    (float_key c) as [[c1 c2] c3]. lia.
Qed.

Lemma float_ge_total (a b : float) :
  is_nan a = false -> is_nan b = false ->
  float_ge a b = false -> float_ge b a = true.
Proof.
  intros Ha Hb Hab. unfold float_ge in *.
  apply SFleb_key; trivial.
  assert (~ key_le (float_key b) (float_key a)) as Hn.
  { intros Hk. apply SFleb_key in Hk; trivial. congruence. }
  unfold key_le in *.
  destruct (float_key a) as [[a1 a2] a3], (float_key b) as [[b1 b2] b3]. lia.
Qed.

Lemma float_lt_ge (a b : float) :
  is_nan a = false -> is_nan b = false ->
  float_lt a b = negb (float_ge a b).
Proof.
  intros Ha Hb. unfold float_lt, float_ge.
  destruct (SFltb a b) eqn:Hlt, (SFleb b a) eqn:Hle; trivial; exfalso.
  - apply SFltb_key in Hlt; trivial. apply SFleb_key in Hle; trivial. tauto.
  - assert (~ key_le (float_key b) (float_key a)) as Hn.
    { intros Hk. apply SFleb_key in Hk; trivial. congruence. }
    apply SFltb_key in Hn; trivial. congruence.
Qed.

(** ** Validator and safe insertion *)

Lemma validateDeveloper_true (d : Developer) :
  validateDeveloper (Some d) = true <->
  0 < dev_id d /\
  cstr (dev_name d) <> EmptyString /\
  cstr (dev_email d) <> EmptyString /\
  string_mem "@" (cstr (dev_email d)) = true /\
  float_lt (dev_salary d) float_zero = false.
Proof.
  unfold validateDeveloper.
  rewrite <- (strchr_cstr (dev_email d) "@") by discriminate.
  rewrite <- !strlen_cstr.
  destruct (Z.leb_spec (dev_id d) 0).
  { split; [discriminate | lia]. }
  destruct (Z.eqb_spec (strlen (dev_name d)) 0).
  { split; [discriminate | tauto]. }
  destruct (Z.eqb_spec (strlen (dev_email d)) 0).
  { split; [discriminate | tauto]. }
  destruct (float_lt (dev_salary d) float_zero).
  { split; [discriminate | intros (_ & _ & _ & _ & ?); discriminate]. }
  destruct (strchr (dev_email d) "@").
  - split; [intros _; repeat split; trivial; discriminate | reflexivity].
  - split; [discriminate | tauto].
Qed.

(** C6, the claim as stated does not hold: a record whose salary is NaN
    passes [validateDeveloper], since [NaN < 0] is false, although its
    salary is not [>= 0]. *)
Lemma validateDeveloper_nan_counterexample :
  is_Developer dev_nan /\
  ~ (validateDeveloper (Some dev_nan) = true <-> isValid_spec dev_nan).
Proof.
  split; [now vm_compute|].
  intros [H _]. specialize (H eq_refl).
  destruct H as (_ & _ & _ & _ & H). discriminate H.
Qed.

(** C6, amended: for every record whose salary is not NaN,
    [validateDeveloper] is true if and only if the identity is positive, the
    name is non-empty, the email is non-empty and contains "@", and the
    salary is [>= 0]. It rejects identity 0, identity -5, an empty name, an
    email without "@" and salary -1, and accepts a record that is well
    formed otherwise and has salary 0. *)
Theorem validateDeveloper_spec :
  (forall d, is_nan (dev_salary d) = false ->
     (validateDeveloper (Some d) = true <-> isValid_spec d)) /\
  (forall d, dev_id d = 0 -> validateDeveloper (Some d) = false) /\
  (forall d, dev_id d = -5 -> validateDeveloper (Some d) = false) /\
  (forall d, cstr (dev_name d) = EmptyString -> validateDeveloper (Some d) = false) /\
  (forall d, string_mem "@" (cstr (dev_email d)) = false ->
     validateDeveloper (Some d) = false) /\
  (forall d, dev_salary d = float_of_Z (-1) -> validateDeveloper (Some d) = false) /\
  (forall d, 0 < dev_id d -> cstr (dev_name d) <> EmptyString ->
     string_mem "@" (cstr (dev_email d)) = true ->
     dev_salary d = float_of_Z 0 ->
     validateDeveloper (Some d) = true).
Proof.
  assert (forall d P, (validateDeveloper (Some d) = true -> P) -> ~ P ->
            validateDeveloper (Some d) = false) as Hrej.
  { intros d P HP HnP. destruct (validateDeveloper (Some d)); tauto. }
  split; [|repeat split].
  - intros d Hnan. rewrite validateDeveloper_true. unfold isValid_spec.
    rewrite float_lt_ge by (trivial; reflexivity).
    destruct (float_ge (dev_salary d) float_zero); simpl; intuition congruence.
  - intros d Hd. apply (Hrej d (0 < dev_id d)); [|lia].
    rewrite validateDeveloper_true. tauto.
  - intros d Hd. apply (Hrej d (0 < dev_id d)); [|lia].
    rewrite validateDeveloper_true. tauto.
  - intros d Hd. apply (Hrej d (cstr (dev_name d) <> EmptyString)); [|tauto].
    rewrite validateDeveloper_true. tauto.
  - intros d Hd. apply (Hrej d (string_mem "@" (cstr (dev_email d)) = true)); [|congruence].
    rewrite validateDeveloper_true. tauto.
  - intros d Hd.
    apply (Hrej d (float_lt (dev_salary d) float_zero = false)).
    + rewrite validateDeveloper_true. tauto.
    + rewrite Hd. discriminate.
  - intros d Hid Hname Hat Hsal. apply validateDeveloper_true.
    repeat split; trivial.
    + intros He. rewrite He in Hat. discriminate.
    + rewrite Hsal. reflexivity.
Qed.

Lemma validateDeveloper_spec_witness :
  is_nan (dev_salary dev_ok) = false /\
  (validateDeveloper (Some dev_ok) = true <-> isValid_spec dev_ok).
Proof.
  split; [reflexivity|].
  apply (proj1 validateDeveloper_spec dev_ok). reflexivity.
Defined.

(** C1, the claim as stated does not hold: an invalid record and a
    duplicate identity are two different cases, yet [safeDeveloperInsert]
    returns the same value, -1, for both. *)
Lemma safeDeveloperInsert_same_code_counterexample :
  is_Developer dev_bad /\ is_Developer dev_ok /\
  insert_case_of createLinkedList dev_bad = CaseInvalid /\
  insert_case_of {| ll_head := [dev_ok]; ll_size := 1 |} dev_ok = CaseDuplicate /\
  return_code (safeDeveloperInsert createLinkedList dev_bad []) =
  return_code (safeDeveloperInsert {| ll_head := [dev_ok]; ll_size := 1 |} dev_ok []).
Proof.
  split; [now vm_compute|]. split; [now vm_compute|].
  split; [reflexivity|]. split; reflexivity.
Qed.

(** C1, amended: [safeDeveloperInsert] returns 0 on success and -1 both for
    an invalid record and for a duplicate identity, so that its result tells
    success from failure; the two failures leave the list as it was and
    differ in the message printed. *)
Theorem safeDeveloperInsert_outcomes (l : LinkedList) (dev : Developer) (out : list event) :
  match insert_case_of l dev with
  | CaseInvalid =>
      safeDeveloperInsert l dev out = Ret (-1, l, out ++ [EvInvalid])
  | CaseDuplicate =>
      safeDeveloperInsert l dev out = Ret (-1, l, out ++ [EvDuplicate (dev_id dev)])
  | CaseSuccess =>
      safeDeveloperInsert l dev out =
      Ret (0, {| ll_head := dev :: ll_head l; ll_size := ll_size l + 1 |},
           out ++ [EvAdded (cstr (dev_name dev))])
  end.
Proof.
  unfold insert_case_of, safeDeveloperInsert.
  destruct (validateDeveloper (Some dev)); simpl; [|reflexivity].
  destruct (findDeveloperById l (dev_id dev)); reflexivity.
Qed.

Lemma findDeveloperById_loop_first (chain : list Developer) (id : Z) :
  match findDeveloperById_loop chain id with
  | Some r =>
      exists pre post, chain = pre ++ r :: post /\ dev_id r = id /\
        forall x, x ∈ pre -> dev_id x <> id
  | None => forall x, x ∈ chain -> dev_id x <> id
  end.
Proof.
  induction chain as [|d chain IH]; simpl.
  - intros x Hx. inversion Hx.
  - destruct (Z.eqb_spec (dev_id d) id) as [Heq|Hne].
    + exists [], chain. repeat split; trivial. intros x Hx. inversion Hx.
    + destruct (findDeveloperById_loop chain id) as [r|].
      * destruct IH as (pre & post & -> & Hr & Hpre).
        exists (d :: pre), post. repeat split; trivial.
        intros x Hx. apply elem_of_cons in Hx as [->|Hx]; auto.
      * intros x Hx. apply elem_of_cons in Hx as [->|Hx]; auto.
Qed.

(** C9: when the identity of the record is already in the list,
    [safeDeveloperInsert] returns the failure value -1 and the list, its
    size and its chain, is the one it was given; a valid record gets the
    duplicate message. *)
Theorem safeDeveloperInsert_duplicate (l : LinkedList) (dev : Developer) (out : list event) :
  (exists d, d ∈ ll_head l /\ dev_id d = dev_id dev) ->
  exists ev,
    safeDeveloperInsert l dev out = Ret (-1, l, out ++ [ev]) /\
    (validateDeveloper (Some dev) = true -> ev = EvDuplicate (dev_id dev)).
Proof.
  intros (d & Hin & Hid).
  unfold safeDeveloperInsert, findDeveloperById.
  pose proof (findDeveloperById_loop_first (ll_head l) (dev_id dev)) as Hf.
  destruct (validateDeveloper (Some dev)); simpl.
  - destruct (findDeveloperById_loop (ll_head l) (dev_id dev)).
    + eexists; split; reflexivity.
    + exfalso. exact (Hf d Hin Hid).
  - eexists; split; [reflexivity | discriminate].
Qed.

Lemma safeDeveloperInsert_duplicate_witness :
  exists ev,
    safeDeveloperInsert {| ll_head := [dev_ok]; ll_size := 1 |} dev_ok [] =
      Ret (-1, {| ll_head := [dev_ok]; ll_size := 1 |}, [] ++ [ev]) /\
    (validateDeveloper (Some dev_ok) = true -> ev = EvDuplicate (dev_id dev_ok)).
Proof.
  apply (safeDeveloperInsert_duplicate {| ll_head := [dev_ok]; ll_size := 1 |} dev_ok []).
  exists dev_ok. split; [apply list_elem_of_here | reflexivity].
Defined.

(** ** Linked list *)

Lemma insertDevelopers_run (devs : list Developer) (l : LinkedList) (out : list event) :
  insertDevelopers l devs out =
  Ret ({| ll_head := rev devs ++ ll_head l;
          ll_size := ll_size l + Z.of_nat (length devs) |},
       out ++ map (fun d => EvAdded (cstr (dev_name d))) devs).
Proof.
  revert l out. induction devs as [|d devs IH]; intros l out; simpl.
  - unfold M_ret. rewrite Z.add_0_r, app_nil_r. destruct l; reflexivity.
  - unfold insertDeveloper. run_M. rewrite IH. simpl.
    rewrite <- !app_assoc. simpl. do 3 f_equal. lia.
Qed.

Lemma displayDevelopers_loop_run (chain : list Developer) (index : Z) (out : list event) :
  displayDevelopers_loop chain index out = Ret (tt, out ++ display_events chain index).
Proof.
  revert index out. induction chain as [|d chain IH]; intros index out; simpl.
  - unfold M_ret. now rewrite app_nil_r.
  - run_M. rewrite IH. now rewrite <- app_assoc.
Qed.

(** C5: after the records [devs] are inserted one by one into an empty
    list, the chain from the head, and the traversal [displayDevelopers]
    makes of it, is [devs] in reverse order, and [findDeveloperById] on the
    identity of any inserted record returns the first record from the head
    that has this identity. *)
Theorem insertDevelopers_reverse_and_found (devs : list Developer) (out : list event) :
  exists l out',
    insertDevelopers createLinkedList devs out = Ret (l, out') /\
    ll_head l = rev devs /\
    ll_size l = Z.of_nat (length devs) /\
    (forall out2,
       displayDevelopers l out2 =
       Ret (tt, out2 ++ EvDisplayHeader :: display_events (rev devs) 1)) /\
    (forall d, d ∈ devs ->
       exists pre r post,
         findDeveloperById l (dev_id d) = Some r /\
         rev devs = pre ++ r :: post /\
         dev_id r = dev_id d /\
         (forall x, x ∈ pre -> dev_id x <> dev_id d)).
Proof.
  rewrite insertDevelopers_run. simpl. rewrite app_nil_r.
  eexists _, _. split; [reflexivity|]. simpl. repeat split.
  - intros out2. unfold displayDevelopers. run_M.
    rewrite displayDevelopers_loop_run. now rewrite <- app_assoc.
  - intros d Hd. unfold findDeveloperById. simpl.
    pose proof (findDeveloperById_loop_first (rev devs) (dev_id d)) as Hf.
    destruct (findDeveloperById_loop (rev devs) (dev_id d)) as [r|].
    + destruct Hf as (pre & post & Heq & Hr & Hpre).
      exists pre, r, post. auto.
    + exfalso. apply (Hf d); trivial.
      apply list_elem_of_In, in_rev. rewrite rev_involutive.
      now apply list_elem_of_In.
Qed.

Lemma insertDevelopers_reverse_and_found_witness :
  exists l out',
    insertDevelopers createLinkedList [dev_ok; dev_bad] [] = Ret (l, out') /\
    ll_head l = [dev_bad; dev_ok] /\
    ll_size l = 2 /\
    (exists pre r post,
       findDeveloperById l (dev_id dev_ok) = Some r /\
       [dev_bad; dev_ok] = pre ++ r :: post /\
       dev_id r = dev_id dev_ok /\
       (forall x, x ∈ pre -> dev_id x <> dev_id dev_ok)).
Proof.
  destruct (insertDevelopers_reverse_and_found [dev_ok; dev_bad] [])
    as (l & out' & Hrun & Hhead & Hsize & _ & Hfind).
  exists l, out'. split; [exact Hrun|]. split; [exact Hhead|]. split; [exact Hsize|].
  apply (Hfind dev_ok). apply list_elem_of_here.
Defined.

(** ** Dynamic array *)

Lemma int_value_in (z : Z) : INT_MIN <= z <= INT_MAX -> int_value z = Ret z.
Proof.
  intros Hz. unfold int_value.
  destruct (Z.leb_spec INT_MIN z); [|lia]. destruct (Z.leb_spec z INT_MAX); [|lia].
  reflexivity.
Qed.

Lemma int_value_above (z : Z) : INT_MAX < z -> int_value z = Undef.
Proof.
  intros Hz. unfold int_value.
  destruct (Z.leb_spec z INT_MAX); [lia|]. now rewrite andb_false_r.
Qed.

Lemma appended_wf (arr : DynamicArray) (dev : Developer) :
  wf_array arr -> 1 <= arr_capacity arr ->
  wf_array (appended arr dev) /\ 1 <= arr_capacity (appended arr dev).
Proof.
  intros [Hsz Hcap] Hpos. unfold wf_array, appended. simpl.
  rewrite length_app. simpl.
  destruct (Z.eqb_spec (arr_size arr) (arr_capacity arr)); lia.
Qed.

Lemma addDeveloper_ok (arr : DynamicArray) (dev : Developer) (out : list event) :
  wf_array arr -> 1 <= arr_capacity arr <= INT_MAX ->
  ~ (arr_size arr = arr_capacity arr /\ INT_MAX < arr_capacity arr * 2) ->
  addDeveloper arr dev out =
  Ret (appended arr dev,
       if arr_size arr =? arr_capacity arr
       then out ++ [EvResized (arr_capacity arr * 2)] else out).
Proof.
  intros [Hsz Hcap] Hpos Hno. unfold addDeveloper, resizeArray, store_slot, appended.
  assert (INT_MIN <= arr_size arr + 1 <= INT_MAX) as Hsize
    by (unfold INT_MIN in *; lia).
  destruct (Z.eqb_spec (arr_size arr) (arr_capacity arr)) as [He|Hne].
  - destruct (Z.geb_spec (arr_size arr) (arr_capacity arr)); [|lia].
    unfold M_bind at 1 2. unfold lift at 1.
    rewrite int_value_in by (unfold INT_MIN in *; lia).
    destruct (Z.leb_spec (arr_capacity arr * 2) 0); [lia|]. run_M.
    replace ((0 <=? arr_size arr) && (arr_size arr <? arr_capacity arr * 2)) with true
      by (symmetry; apply andb_true_iff; lia).
    destruct (Z.ltb_spec (arr_size arr) (Z.of_nat (length (arr_developers arr)))); [lia|].
    destruct (Z.eqb_spec (arr_size arr) (Z.of_nat (length (arr_developers arr)))); [|lia].
    now rewrite int_value_in.
  - destruct (Z.geb_spec (arr_size arr) (arr_capacity arr)); [lia|]. run_M.
    replace ((0 <=? arr_size arr) && (arr_size arr <? arr_capacity arr)) with true
      by (symmetry; apply andb_true_iff; lia).
    destruct (Z.ltb_spec (arr_size arr) (Z.of_nat (length (arr_developers arr)))); [lia|].
    destruct (Z.eqb_spec (arr_size arr) (Z.of_nat (length (arr_developers arr)))); [|lia].
    now rewrite int_value_in.
Qed.

Lemma addDeveloper_overflow (arr : DynamicArray) (dev : Developer) (out : list event) :
  arr_size arr = arr_capacity arr -> INT_MAX < arr_capacity arr * 2 ->
  addDeveloper arr dev out = Undef.
Proof.
  intros He Hbig. unfold addDeveloper, resizeArray.
  destruct (Z.geb_spec (arr_size arr) (arr_capacity arr)); [|lia].
  unfold M_bind at 1 2. unfold lift at 1. now rewrite int_value_above.
Qed.

Lemma addDeveloper_exit (arr : DynamicArray) (dev : Developer) (out : list event) :
  wf_array arr -> arr_capacity arr = 0 -> addDeveloper arr dev out = Exit.
Proof.
  intros [Hsz Hcap] H0. unfold addDeveloper, resizeArray.
  destruct (Z.geb_spec (arr_size arr) (arr_capacity arr)); [|lia].
  unfold M_bind at 1 2. unfold lift at 1. rewrite H0. reflexivity.
Qed.

Lemma pow2_pos (k : nat) : 0 < 2 ^ Z.of_nat k.
Proof. apply Z.pow_pos_nonneg; lia. Qed.

Lemma pow2_S (k : nat) : 2 ^ Z.of_nat (S k) = 2 * 2 ^ Z.of_nat k.
Proof. rewrite Nat2Z.inj_succ. apply Z.pow_succ_r. lia. Qed.

Lemma pow2_mono (j k : nat) : (j <= k)%nat -> 2 ^ Z.of_nat j <= 2 ^ Z.of_nat k.
Proof. intros H. apply Z.pow_le_mono_r; lia. Qed.

Lemma resize_events_S (C : Z) (k : nat) :
  resize_events C (S k) = resize_events C k ++ [EvResized (C * 2 ^ Z.of_nat k * 2)].
Proof.
  unfold resize_events. rewrite seq_S, map_app. simpl. do 3 f_equal.
  rewrite pow2_S. lia.
Qed.

(** A run of appends on an array whose capacity is [C] doubled [k] times:
    it ends with the least doubling [k'] that holds all the records, or in
    the overflow of the doubling that would exceed [INT_MAX]. *)
Lemma addDevelopers_doubling (C : Z) (devs : list Developer) :
  1 <= C ->
  forall (arr : DynamicArray) (out : list event) (k : nat),
    wf_array arr -> arr_capacity arr = C * 2 ^ Z.of_nat k ->
    (k = O \/ C * 2 ^ Z.of_nat (pred k) < arr_size arr) ->
    exists k',
      (k <= k')%nat /\
      arr_size arr + Z.of_nat (length devs) <= C * 2 ^ Z.of_nat k' /\
      (k' = O \/ C * 2 ^ Z.of_nat (pred k') < arr_size arr + Z.of_nat (length devs)) /\
      (C * 2 ^ Z.of_nat k' <= INT_MAX ->
       exists arr',
         addDevelopers arr devs (out ++ resize_events C k) =
           Ret (arr', out ++ resize_events C k') /\
         arr_developers arr' = arr_developers arr ++ devs /\
         arr_size arr' = arr_size arr + Z.of_nat (length devs) /\
         arr_capacity arr' = C * 2 ^ Z.of_nat k' /\
         wf_array arr') /\
      (C * 2 ^ Z.of_nat k <= INT_MAX -> INT_MAX < C * 2 ^ Z.of_nat k' ->
       addDevelopers arr devs (out ++ resize_events C k) = Undef).
Proof.
  intros HC. induction devs as [|d devs IH]; intros arr out k Hwf Hcap Hk.
  - exists k. simpl. destruct Hwf as [Hsz Hle].
    split; [lia|]. split; [lia|]. split; [rewrite Z.add_0_r; exact Hk|]. split.
    + intros _. exists arr. unfold M_ret. rewrite app_nil_r, Z.add_0_r.
      repeat split; trivial.
    + lia.
  - pose proof (pow2_pos k) as Hpow.
    assert (1 <= arr_capacity arr) as Hpos by nia.
    destruct (appended_wf arr d Hwf Hpos) as [Hwf1 Hpos1].
    pose proof Hwf as [Hsz Hle].
    pose proof (eq_refl : arr_size (appended arr d) = arr_size arr + 1) as Hs1.
    pose proof (eq_refl : arr_developers (appended arr d) = arr_developers arr ++ [d]) as Hd1.
    destruct (Z.eqb_spec (arr_size arr) (arr_capacity arr)) as [Hfull|Hroom].
    + destruct (IH (appended arr d) out (S k) Hwf1) as (k' & Hkk & Hfit & Hleast & Hret & Hundef).
      * unfold appended. simpl.
        destruct (Z.eqb_spec (arr_size arr) (arr_capacity arr)); [|lia].
        rewrite Hcap, pow2_S. lia.
      * right. unfold appended. simpl. lia.
      * pose proof (pow2_mono (S k) k' Hkk) as Hmono. rewrite pow2_S in Hmono.
        rewrite Hs1 in Hfit, Hleast, Hret. rewrite Hd1 in Hret.
        exists k'. simpl length. rewrite Nat2Z.inj_succ.
        split; [lia|]. split; [lia|]. split; [destruct Hleast; [left|right]; trivial; lia|].
        split.
        -- intros Hbound. simpl addDevelopers. unfold M_bind.
           rewrite addDeveloper_ok by (trivial; nia).
           destruct (Z.eqb_spec (arr_size arr) (arr_capacity arr)); [|lia].
           rewrite Hcap, <- app_assoc, <- resize_events_S.
           destruct (Hret Hbound) as (arr' & Hrun & Hdevs & Hsize & Hcap' & Hwf').
           exists arr'. rewrite Hrun, Hdevs, Hsize, <- app_assoc. simpl.
           conj; trivial; lia.
        -- intros Hstart Hbig. simpl addDevelopers. unfold M_bind.
           destruct (Z_lt_dec INT_MAX (arr_capacity arr * 2)) as [Hov|Hok].
           ++ now rewrite addDeveloper_overflow.
           ++ rewrite addDeveloper_ok by (trivial; lia).
              destruct (Z.eqb_spec (arr_size arr) (arr_capacity arr)); [|lia].
              rewrite Hcap, <- app_assoc, <- resize_events_S.
              apply Hundef; trivial. rewrite pow2_S. lia.
    + destruct (IH (appended arr d) out k Hwf1) as (k' & Hkk & Hfit & Hleast & Hret & Hundef).
      * unfold appended. simpl.
        destruct (Z.eqb_spec (arr_size arr) (arr_capacity arr)); [lia|]. exact Hcap.
      * unfold appended. simpl. destruct Hk; [now left|right; lia].
      * pose proof (pow2_mono k k' Hkk) as Hmono.
        rewrite Hs1 in Hfit, Hleast, Hret. rewrite Hd1 in Hret.
        exists k'. simpl length. rewrite Nat2Z.inj_succ.
        split; [lia|]. split; [lia|]. split; [destruct Hleast; [left|right]; trivial; lia|].
        split.
        -- intros Hbound. simpl addDevelopers. unfold M_bind.
           rewrite addDeveloper_ok by (trivial; nia).
           destruct (Z.eqb_spec (arr_size arr) (arr_capacity arr)); [lia|].
           destruct (Hret Hbound) as (arr' & Hrun & Hdevs & Hsize & Hcap' & Hwf').
           exists arr'. rewrite Hrun, Hdevs, Hsize, <- app_assoc. simpl.
           conj; trivial; lia.
        -- intros Hstart Hbig. simpl addDevelopers. unfold M_bind.
           rewrite addDeveloper_ok by (trivial; lia).
           destruct (Z.eqb_spec (arr_size arr) (arr_capacity arr)); [lia|].
           now apply Hundef.
Qed.

Lemma addDevelopers_create (C : Z) (devs : list Developer) (out : list event) :
  1 <= C ->
  exists k : nat,
    Z.of_nat (length devs) <= C * 2 ^ Z.of_nat k /\
    (k = O \/ C * 2 ^ Z.of_nat (pred k) < Z.of_nat (length devs)) /\
    (C * 2 ^ Z.of_nat k <= INT_MAX ->
     exists arr,
       addDevelopers (createDynamicArray C) devs out = Ret (arr, out ++ resize_events C k) /\
       arr_developers arr = devs /\
       arr_size arr = Z.of_nat (length devs) /\
       arr_capacity arr = C * 2 ^ Z.of_nat k /\
       wf_array arr) /\
    (C <= INT_MAX -> INT_MAX < C * 2 ^ Z.of_nat k ->
     addDevelopers (createDynamicArray C) devs out = Undef).
Proof.
  intros HC.
  destruct (addDevelopers_doubling C devs HC (createDynamicArray C) out 0)
    as (k & _ & Hfit & Hleast & Hret & Hundef).
  - split; simpl; lia.
  - simpl. lia.
  - now left.
  - unfold resize_events in Hret at 1. unfold resize_events in Hundef at 1.
    simpl in Hfit, Hleast, Hret, Hundef. rewrite app_nil_r in Hret, Hundef.
    exists k. split; [exact Hfit|]. split; [exact Hleast|]. split.
    + intros Hb. destruct (Hret Hb) as (arr & Hrun & Hdevs & Hsize & Hcap & Hwf).
      exists arr. auto.
    + intros HCmax Hbig. apply Hundef; trivial. lia.
Qed.

Lemma addDevelopers_bounded (C : Z) (devs : list Developer) (out : list event) :
  1 <= C -> 4 * C <= INT_MAX -> Z.of_nat (length devs) <= 2 * C + 1 ->
  exists arr out',
    addDevelopers (createDynamicArray C) devs out = Ret (arr, out') /\
    arr_developers arr = devs /\
    arr_size arr = Z.of_nat (length devs) /\
    arr_capacity arr <= 4 * C /\
    wf_array arr.
Proof.
  intros HC Hmax Hlen.
  destruct (addDevelopers_create C devs out HC) as (k & Hfit & Hleast & Hret & _).
  assert (C * 2 ^ Z.of_nat k <= 4 * C) as Hcap.
  { destruct Hleast as [->|Hl]; [simpl; lia|].
    destruct k as [|j]; [simpl; lia|]. simpl pred in Hl.
    pose proof (pow2_pos j). rewrite pow2_S. nia. }
  destruct (Hret ltac:(lia)) as (arr & Hrun & Hdevs & Hsize & Hcap' & Hwf).
  exists arr, (out ++ resize_events C k). rewrite Hcap'. auto.
Qed.

Lemma addDevelopers_overflow (C : Z) (devs : list Developer) (out : list event) :
  1 <= C <= INT_MAX -> INT_MAX < 4 * C -> Z.of_nat (length devs) = 2 * C + 1 ->
  addDevelopers (createDynamicArray C) devs out = Undef.
Proof.
  intros HC Hmax Hlen.
  destruct (addDevelopers_create C devs out ltac:(lia)) as (k & Hfit & _ & _ & Hundef).
  apply Hundef; [lia|].
  destruct k as [|[|j]].
  - simpl in Hfit. lia.
  - change (2 ^ Z.of_nat 1) with 2 in Hfit. lia.
  - pose proof (pow2_pos j). rewrite !pow2_S. nia.
Qed.

(** C4, the claim as stated does not hold: the capacity is an [int]. In
    an array created with capacity [2^30] the append number [2^30 + 1]
    finds the array full and doubles the capacity to [2^31], which is
    beyond [INT_MAX]: the run of [2 * 2^30 + 1] appends does not return a
    store. *)
Lemma addDevelopers_overflow_counterexample :
  1 <= 1073741824 /\
  Z.of_nat (length many_devs) = 2 * 1073741824 + 1 /\
  addDevelopers (createDynamicArray 1073741824) many_devs [] = Undef.
Proof.
  assert (Z.of_nat (length many_devs) = 2 * 1073741824 + 1) as Hlen.
  { unfold many_devs. rewrite length_replicate. apply Z2Nat.id. discriminate. }
  split; [discriminate|]. split; [exact Hlen|].
  apply addDevelopers_overflow; trivial.
  - split; discriminate.
  - reflexivity.
Qed.

(** C4, amended: in an array created with capacity [C >= 1] such that
    [4C <= INT_MAX], after the [2C+1] records [devs] are appended the
    capacity is at least [2C+1] (and at most [4C]), the size is [2C+1] and
    every index below [2C+1] holds the record appended at that position;
    the same holds after each shorter run of appends, so that growth moves
    no record and changes none. *)
Theorem addDevelopers_grow_preserve (C : Z) (devs : list Developer) (out : list event) :
  1 <= C -> 4 * C <= INT_MAX -> Z.of_nat (length devs) = 2 * C + 1 ->
  (exists arr out',
     addDevelopers (createDynamicArray C) devs out = Ret (arr, out') /\
     2 * C + 1 <= arr_capacity arr <= 4 * C /\
     arr_size arr = 2 * C + 1 /\
     forall i : nat, (Z.of_nat i < 2 * C + 1) -> arr_developers arr !! i = devs !! i) /\
  (forall n : nat, exists arr out',
     addDevelopers (createDynamicArray C) (take n devs) out = Ret (arr, out') /\
     arr_size arr = Z.of_nat (length (take n devs)) /\
     arr_size arr <= arr_capacity arr /\
     forall i : nat, (i < n)%nat -> arr_developers arr !! i = devs !! i).
Proof.
  intros HC Hmax Hlen. split.
  - destruct (addDevelopers_bounded C devs out HC Hmax ltac:(lia))
      as (arr & out' & Hrun & Hdevs & Hsize & Hcap & [Hsz Hle]).
    exists arr, out'. rewrite Hdevs. repeat split; trivial; lia.
  - intros n.
    destruct (addDevelopers_bounded C (take n devs) out HC Hmax)
      as (arr & out' & Hrun & Hdevs & Hsize & Hcap & [Hsz Hle]).
    { rewrite length_take. lia. }
    exists arr, out'. rewrite Hdevs. repeat split; trivial.
    intros i Hi. now apply lookup_take_lt.
Qed.

Lemma addDevelopers_grow_preserve_witness :
  exists arr out',
    addDevelopers (createDynamicArray 1) [dev_ok; dev_nan; dev_bad] [] = Ret (arr, out') /\
    2 * 1 + 1 <= arr_capacity arr <= 4 * 1 /\
    arr_size arr = 2 * 1 + 1 /\
    forall i : nat, (Z.of_nat i < 2 * 1 + 1) ->
      arr_developers arr !! i = [dev_ok; dev_nan; dev_bad] !! i.
Proof.
  apply (addDevelopers_grow_preserve 1 [dev_ok; dev_nan; dev_bad] []);
    [lia | unfold INT_MAX; lia | reflexivity].
Defined.

(** ** Hash table *)

Lemma hash_nonneg (key : Z) :
  0 <= key -> hash key = key mod HASH_TABLE_SIZE /\ 0 <= hash key <= 100.
Proof.
  intros Hk. unfold hash, HASH_TABLE_SIZE.
  rewrite Z.rem_mod_nonneg by lia.
  pose proof (Z.mod_pos_bound key 101 ltac:(lia)) as Hb.
  rewrite (Z.mod_small (key mod 101)) by lia. lia.
Qed.

Lemma hash_negative (key : Z) :
  key < 0 -> Z.rem key HASH_TABLE_SIZE <> 0 ->
  hash key = 2 ^ 32 + Z.rem key HASH_TABLE_SIZE /\ 100 < hash key.
Proof.
  intros Hk Hr. unfold hash, HASH_TABLE_SIZE in *.
  pose proof (Z.rem_bound_pos_neg key 101 ltac:(lia) ltac:(lia)) as Hb.
  change (2 ^ 32) with 4294967296.
  assert ((Z.rem key 101) mod 4294967296 = 4294967296 + Z.rem key 101) as ->.
  { symmetry. apply (Z.mod_unique _ _ (-1)); lia. }
  lia.
Qed.

(** C2, at the identity -5 the code leaves the interval: [-5 % 101] is -5,
    which [hash] returns converted to [unsigned int]. *)
Theorem hash_minus_five :
  hash (-5) = 4294967291 /\ ~ (0 <= hash (-5) <= 100) /\ hash (-5) <> (-5) mod 101.
Proof.
  split; [reflexivity|]. split.
  - intros [_ H]. apply H. reflexivity.
  - discriminate.
Qed.

Lemma hashInsert_run (table : HashTable) (key : Z) (dev : Developer) :
  wf_table table -> 0 <= key ->
  exists table',
    hashInsert table key dev = Ret table' /\
    wf_table table' /\
    hashSearch table' key = Ret (Some dev) /\
    forall key', key' <> key -> hashSearch table' key' = hashSearch table key'.
Proof.
  intros Hwf Hk. unfold hashInsert, hashSearch, wf_table in *.
  destruct (hash_nonneg key Hk) as [_ Hh].
  destruct (Z.ltb_spec (hash key) HASH_TABLE_SIZE) as [Hlt|Hge];
    [|unfold HASH_TABLE_SIZE in Hge; lia].
  destruct (lookup_lt_is_Some_2 (buckets table) (Z.to_nat (hash key)) ltac:(lia))
    as [chain Hchain].
  rewrite Hchain. eexists. split; [reflexivity|]. simpl.
  split; [now rewrite length_insert|]. split.
  - rewrite list_lookup_insert_eq by lia. simpl. now rewrite Z.eqb_refl.
  - intros key' Hne. destruct (hash key' <? HASH_TABLE_SIZE) eqn:Hlt'; trivial.
    destruct (Z.eq_dec (hash key') (hash key)) as [He|He].
    + rewrite He, list_lookup_insert_eq, Hchain by lia. simpl.
      destruct (Z.eqb_spec key key'); [congruence | reflexivity].
    + rewrite list_lookup_insert_ne; trivial.
      unfold hash in *.
      pose proof (Z.mod_pos_bound (Z.rem key HASH_TABLE_SIZE) (2 ^ 32) ltac:(lia)).
      pose proof (Z.mod_pos_bound (Z.rem key' HASH_TABLE_SIZE) (2 ^ 32) ltac:(lia)).
      lia.
Qed.

Lemma createHashTable_wf : wf_table createHashTable.
Proof. reflexivity. Qed.

(** For identities that are not negative the hash index keeps colliding
    identities apart. *)
Lemma hashInsert_collision (table : HashTable) (k1 k2 : Z) (r1 r2 : Developer) :
  wf_table table -> 0 <= k1 -> 0 <= k2 -> k1 <> k2 ->
  exists t1 t2,
    hashInsert table k1 r1 = Ret t1 /\ hashInsert t1 k2 r2 = Ret t2 /\
    hashSearch t2 k1 = Ret (Some r1) /\ hashSearch t2 k2 = Ret (Some r2).
Proof.
  intros Hwf H1 H2 Hne.
  destruct (hashInsert_run table k1 r1 Hwf H1) as (t1 & Hi1 & Hwf1 & Hs1 & _).
  destruct (hashInsert_run t1 k2 r2 Hwf1 H2) as (t2 & Hi2 & _ & Hs2 & Hother).
  exists t1, t2. repeat split; trivial. rewrite Hother; trivial.
Qed.

(** For an identity that is not negative the record inserted last under it
    is the one found. *)
Lemma hashInsert_duplicate (table : HashTable) (k : Z) (r1 r2 : Developer) :
  wf_table table -> 0 <= k ->
  exists t1 t2,
    hashInsert table k r1 = Ret t1 /\ hashInsert t1 k r2 = Ret t2 /\
    hashSearch t2 k = Ret (Some r2).
Proof.
  intros Hwf Hk.
  destruct (hashInsert_run table k r1 Hwf Hk) as (t1 & Hi1 & Hwf1 & _).
  destruct (hashInsert_run t1 k r2 Hwf1 Hk) as (t2 & Hi2 & _ & Hs2 & _).
  exists t1, t2. auto.
Qed.

(** C7, at the identities -1 and -102: they differ and have the same hash,
    4294967295, which is no bucket of the table; [hashInsert] and
    [hashSearch] go outside the array of buckets. *)
Theorem hashInsert_negative_collision (table : HashTable) (r : Developer) :
  -1 <> -102 /\ hash (-1) = hash (-102) /\
  hashInsert table (-1) r = Undef /\ hashInsert table (-102) r = Undef /\
  hashSearch table (-1) = Undef /\ hashSearch table (-102) = Undef.
Proof. repeat split. discriminate. Qed.

(** C8, at the identity -5: the first [hashInsert] already goes outside the
    array of buckets, and no search for -5 returns a record. *)
Theorem hashInsert_negative_duplicate (table : HashTable) (r1 : Developer) :
  hashInsert table (-5) r1 = Undef /\ hashSearch table (-5) = Undef.
Proof. split; reflexivity. Qed.

(** ** Arrays indexed by integers *)

Lemma lkp_Some (arr : list Developer) (k : Z) (d : Developer) :
  lkp arr k = Some d -> in_bounds arr k.
Proof.
  unfold lkp, in_bounds. destruct (Z.leb_spec 0 k) as [Hk|Hk]; [|discriminate].
  intros Hd. apply lookup_lt_Some in Hd. lia.
Qed.

Lemma lkp_in_bounds (arr : list Developer) (k : Z) :
  in_bounds arr k -> exists d, lkp arr k = Some d.
Proof.
  unfold lkp, in_bounds. intros Hk.
  destruct (Z.leb_spec 0 k); [|lia].
  apply lookup_lt_is_Some_2. lia.
Qed.

Lemma lkp_None (arr : list Developer) (k : Z) :
  ~ in_bounds arr k -> lkp arr k = None.
Proof.
  intros Hk. destruct (lkp arr k) eqn:H; trivial.
  apply lkp_Some in H. contradiction.
Qed.

Lemma rd_lkp (arr : list Developer) (k : Z) :
  rd arr k = match lkp arr k with Some d => Ret d | None => Undef end.
Proof.
  unfold rd, lkp.
  destruct (Z.leb_spec 0 k); simpl; trivial.
  destruct (Z.ltb_spec k (Z.of_nat (length arr))); trivial.
  rewrite lookup_ge_None_2 by lia. reflexivity.
Qed.

Lemma wr_in (arr : list Developer) (k : Z) (d : Developer) :
  in_bounds arr k -> wr arr k d = Ret (upd arr k d).
Proof.
  unfold wr, in_bounds, upd. intros Hk.
  destruct (Z.leb_spec 0 k); [|lia].
  destruct (Z.ltb_spec k (Z.of_nat (length arr))); [reflexivity|lia].
Qed.

Lemma wr_out (arr : list Developer) (k : Z) (d : Developer) :
  ~ in_bounds arr k -> wr arr k d = Undef.
Proof.
  unfold wr, in_bounds. intros Hk.
  destruct (Z.leb_spec 0 k); trivial.
  destruct (Z.ltb_spec k (Z.of_nat (length arr))); trivial. lia.
Qed.

Lemma length_upd (arr : list Developer) (k : Z) (d : Developer) :
  length (upd arr k d) = length arr.
Proof. apply length_insert. Qed.

Lemma in_bounds_upd (arr : list Developer) (k k' : Z) (d : Developer) :
  in_bounds (upd arr k d) k' <-> in_bounds arr k'.
Proof. unfold in_bounds. now rewrite length_upd. Qed.

Lemma lkp_upd (arr : list Developer) (k k' : Z) (d : Developer) :
  in_bounds arr k ->
  lkp (upd arr k d) k' = if k' =? k then Some d else lkp arr k'.
Proof.
  unfold lkp, upd, in_bounds. intros Hk.
  destruct (Z.eqb_spec k' k) as [->|Hne].
  - destruct (Z.leb_spec 0 k); [|lia]. apply list_lookup_insert_eq. lia.
  - destruct (Z.leb_spec 0 k'); trivial.
    apply list_lookup_insert_ne. lia.
Qed.

Lemma upd_same (arr : list Developer) (k : Z) (d : Developer) :
  lkp arr k = Some d -> upd arr k d = arr.
Proof.
  unfold lkp, upd. destruct (0 <=? k); [|discriminate]. apply list_insert_id.
Qed.

Lemma length_swap (arr : list Developer) (i j : Z) : length (swap arr i j) = length arr.
Proof.
  unfold swap. destruct (lkp arr i), (lkp arr j); trivial.
  now rewrite !length_upd.
Qed.

Lemma lkp_swap (arr : list Developer) (i j k : Z) :
  in_bounds arr i -> in_bounds arr j ->
  lkp (swap arr i j) k =
  if k =? j then lkp arr i else if k =? i then lkp arr j else lkp arr k.
Proof.
  intros Hi Hj. unfold swap.
  destruct (lkp_in_bounds arr i Hi) as [di Hdi].
  destruct (lkp_in_bounds arr j Hj) as [dj Hdj].
  rewrite Hdi, Hdj.
  rewrite lkp_upd by (now apply in_bounds_upd).
  destruct (Z.eqb_spec k j); trivial.
  rewrite lkp_upd by trivial.
  destruct (Z.eqb_spec k i); trivial.
Qed.

Lemma swap_same (arr : list Developer) (i : Z) : swap arr i i = arr.
Proof.
  unfold swap. destruct (lkp arr i) as [d|] eqn:Hd; trivial.
  rewrite (upd_same arr i d Hd). apply upd_same, Hd.
Qed.

(** The four accesses of an exchange, followed by the rest of the code. *)
Lemma swap_run {B : Type} (arr : list Developer) (i j : Z)
    (k : list Developer -> res B) :
  in_bounds arr i -> in_bounds arr j ->
  (temp <- rd arr i ;; aj <- rd arr j ;;
   arr1 <- wr arr i aj ;; arr2 <- wr arr1 j temp ;; k arr2)%res
  = k (swap arr i j).
Proof.
  intros Hi Hj. unfold swap. rewrite !rd_lkp.
  destruct (lkp_in_bounds arr i Hi) as [di ->].
  destruct (lkp_in_bounds arr j Hj) as [dj ->]. simpl.
  rewrite wr_in by trivial. simpl.
  rewrite wr_in by (now apply in_bounds_upd). reflexivity.
Qed.

(** The same once [arr[j]] has been read. *)
Lemma swap_run_read {B : Type} (arr : list Developer) (i j : Z) (dj : Developer)
    (k : list Developer -> res B) :
  in_bounds arr i -> lkp arr j = Some dj ->
  (temp <- rd arr i ;; arr1 <- wr arr i dj ;; arr2 <- wr arr1 j temp ;; k arr2)%res
  = k (swap arr i j).
Proof.
  intros Hi Hj. rewrite <- (swap_run arr i j k Hi (lkp_Some _ _ _ Hj)).
  rewrite (rd_lkp arr j), Hj. reflexivity.
Qed.

Lemma within_refl (lo hi : Z) (arr : list Developer) : within lo hi arr arr.
Proof. repeat split; trivial. intros k d Hk Hd. eauto. Qed.

Lemma within_trans (lo hi : Z) (a b c : list Developer) :
  within lo hi a b -> within lo hi b c -> within lo hi a c.
Proof.
  intros (Hl1 & Ho1 & Hi1) (Hl2 & Ho2 & Hi2). repeat split.
  - congruence.
  - intros k Hk. rewrite Ho2, Ho1; trivial.
  - intros k d Hk Hd. destruct (Hi2 k d Hk Hd) as (k' & Hk' & Hd'). eauto.
Qed.

Lemma within_mono (lo hi lo' hi' : Z) (a b : list Developer) :
  lo' <= lo -> hi <= hi' -> within lo hi a b -> within lo' hi' a b.
Proof.
  intros Hlo Hhi (Hl & Ho & Hi). repeat split; trivial.
  - intros k Hk. apply Ho. lia.
  - intros k d Hk Hd.
    destruct (Z_le_dec lo k) as [H1|H1]; [destruct (Z_le_dec k hi) as [H2|H2]|].
    + destruct (Hi k d ltac:(lia) Hd) as (k' & Hk' & Hd'). exists k'. split; [lia|trivial].
    + exists k. split; trivial. rewrite <- Ho; [trivial|lia].
    + exists k. split; trivial. rewrite <- Ho; [trivial|lia].
Qed.

Lemma within_swap (lo hi : Z) (arr : list Developer) (i j : Z) :
  in_bounds arr i -> in_bounds arr j -> lo <= i <= hi -> lo <= j <= hi ->
  within lo hi arr (swap arr i j).
Proof.
  intros Hi Hj Hil Hjl. repeat split.
  - apply length_swap.
  - intros k Hk. rewrite lkp_swap by trivial.
    destruct (Z.eqb_spec k j); [lia|]. destruct (Z.eqb_spec k i); [lia|]. trivial.
  - intros k d Hk. rewrite lkp_swap by trivial.
    destruct (Z.eqb_spec k j); [eauto|]. destruct (Z.eqb_spec k i); eauto.
Qed.

Lemma within_in_bounds (lo hi : Z) (a b : list Developer) (k : Z) :
  within lo hi a b -> (in_bounds b k <-> in_bounds a k).
Proof. intros (Hl & _). unfold in_bounds. now rewrite Hl. Qed.

Lemma seg_all_within (P : Developer -> Prop) (lo hi : Z) (a b : list Developer) :
  within lo hi a b -> seg_all P a lo hi -> seg_all P b lo hi.
Proof.
  intros (_ & _ & Hi) Ha k d Hk Hd.
  destruct (Hi k d Hk Hd) as (k' & Hk' & Hd'). eauto.
Qed.

Lemma seg_all_outside (P : Developer -> Prop) (lo hi l h : Z) (a b : list Developer) :
  within lo hi a b -> (h < lo \/ hi < l) -> seg_all P a l h -> seg_all P b l h.
Proof.
  intros (_ & Ho & _) Hd Ha k d Hk Hkd. apply (Ha k d Hk).
  rewrite <- Ho; [trivial|lia].
Qed.

(** ** Termination of [partition] and [quickSort] *)

Lemma res_bind_Ret {A B : Type} (m : res A) (k : A -> res B) (b : B) :
  res_bind m k = Ret b -> exists a, m = Ret a /\ k a = Ret b.
Proof. destruct m; simpl; intros H; try discriminate. eauto. Qed.

Lemma rd_fuel (arr : list Developer) (k : Z) : rd arr k <> NoFuel.
Proof. rewrite rd_lkp. destruct (lkp arr k); discriminate. Qed.

Lemma wr_fuel (arr : list Developer) (k : Z) (d : Developer) : wr arr k d <> NoFuel.
Proof. unfold wr. destruct (_ && _); discriminate. Qed.

Lemma res_bind_fuel {A B : Type} (m : res A) (k : A -> res B) :
  m <> NoFuel -> (forall a, m = Ret a -> k a <> NoFuel) -> res_bind m k <> NoFuel.
Proof. destruct m; simpl; intros Hm Hk; auto; discriminate. Qed.

Lemma partition_loop_bounds (pivot : float) (high : Z) (n : nat) :
  forall arr i j arr' i',
    partition_loop n pivot high arr i j = Ret (arr', i') ->
    i <= i' /\ i' - i <= Z.max 0 (high - j).
Proof.
  induction n as [|n IH]; intros arr i j arr' i'; simpl;
    destruct (Z.leb_spec j (high - 1)) as [Hj|Hj]; try discriminate;
    try (intros [= <- <-]; lia).
  intros H. apply res_bind_Ret in H as (aj & _ & H).
  destruct (float_ge (dev_salary aj) pivot).
  - apply res_bind_Ret in H as (temp & _ & H).
    apply res_bind_Ret in H as (aj' & _ & H).
    apply res_bind_Ret in H as (arr1 & _ & H).
    apply res_bind_Ret in H as (arr2 & _ & H).
    apply IH in H. lia.
  - apply IH in H. lia.
Qed.

Lemma partition_loop_fuel (pivot : float) (high : Z) (n : nat) :
  forall arr i j,
    high - j <= Z.of_nat n -> partition_loop n pivot high arr i j <> NoFuel.
Proof.
  induction n as [|n IH]; intros arr i j Hn; simpl;
    destruct (Z.leb_spec j (high - 1)) as [Hj|Hj]; try discriminate; try lia.
  apply res_bind_fuel; [apply rd_fuel|]. intros aj _.
  destruct (float_ge (dev_salary aj) pivot); [|apply IH; lia].
  apply res_bind_fuel; [apply rd_fuel|]. intros temp _.
  apply res_bind_fuel; [apply rd_fuel|]. intros aj' _.
  apply res_bind_fuel; [apply wr_fuel|]. intros arr1 _.
  apply res_bind_fuel; [apply wr_fuel|]. intros arr2 _.
  apply IH. lia.
Qed.

Lemma partition_fuel (arr : list Developer) (low high : Z) :
  partition arr low high <> NoFuel.
Proof.
  unfold partition.
  apply res_bind_fuel; [apply rd_fuel|]. intros ah _.
  apply res_bind_fuel; [apply partition_loop_fuel; lia|]. intros r _.
  apply res_bind_fuel; [apply rd_fuel|]. intros temp _.
  apply res_bind_fuel; [apply rd_fuel|]. intros ah' _.
  apply res_bind_fuel; [apply wr_fuel|]. intros arr1 _.
  apply res_bind_fuel; [apply wr_fuel|]. intros arr2 _.
  discriminate.
Qed.

Lemma partition_bounds (arr : list Developer) (low high : Z)
    (arr' : list Developer) (pi : Z) :
  low <= high -> partition arr low high = Ret (arr', pi) -> low <= pi <= high.
Proof.
  intros Hlh H. unfold partition in H.
  apply res_bind_Ret in H as (ah & _ & H).
  apply res_bind_Ret in H as ([arr1 i1] & Hloop & H).
  apply partition_loop_bounds in Hloop. simpl in H.
  apply res_bind_Ret in H as (temp & _ & H).
  apply res_bind_Ret in H as (ah' & _ & H).
  apply res_bind_Ret in H as (arr2 & _ & H).
  apply res_bind_Ret in H as (arr3 & _ & H).
  injection H as <- <-. lia.
Qed.

Lemma quickSort_fuel (fuel : nat) :
  forall arr low high,
    high - low <= Z.of_nat fuel -> quickSort fuel arr low high <> NoFuel.
Proof.
  induction fuel as [|fuel IH]; intros arr low high Hf; simpl;
    destruct (Z.ltb_spec low high) as [Hlh|Hlh]; try discriminate; try lia.
  apply res_bind_fuel; [apply partition_fuel|]. intros [arr1 pi] Hp. simpl.
  apply partition_bounds in Hp; [|lia].
  apply res_bind_fuel; [apply IH; lia|]. intros arr2 _.
  apply IH. lia.
Qed.

Lemma quickSort_more_fuel (fuel : nat) :
  forall arr low high fuel',
    (fuel <= fuel')%nat -> quickSort fuel arr low high <> NoFuel ->
    quickSort fuel' arr low high = quickSort fuel arr low high.
Proof.
  induction fuel as [|fuel IH]; intros arr low high fuel' Hle Hno;
    destruct fuel' as [|fuel']; simpl in *; trivial; try lia;
    destruct (low <? high); trivial; try congruence.
  destruct (partition arr low high) as [[arr1 pi]| | |]; simpl in *; trivial.
  assert (quickSort fuel arr1 low (pi - 1) <> NoFuel) as H1.
  { intros He. rewrite He in Hno. simpl in Hno. congruence. }
  rewrite (IH arr1 low (pi - 1) fuel') by (trivial; lia).
  destruct (quickSort fuel arr1 low (pi - 1)) as [arr2| | |]; simpl in *; trivial.
  apply IH; [lia | trivial].
Qed.

(** C10: [quickSort] terminates on every array and all indices. When
    [low < high], [partition] returns a position [pi] with
    [low <= pi <= high], so both recursive calls are on ranges strictly
    smaller than [low..high]; [partition] itself needs no more than
    [high - low] turns of its loop; hence a recursion depth of [high - low]
    is enough for [quickSort] to come to an end, with a sorted array or with
    an access outside the array, and any larger allowance gives the same
    result. *)
Theorem quickSort_terminates :
  (forall arr low high arr' pi,
     low < high -> partition arr low high = Ret (arr', pi) ->
     low <= pi <= high /\
     (pi - 1) - low < high - low /\ high - (pi + 1) < high - low) /\
  (forall arr low high, partition arr low high <> NoFuel) /\
  (forall arr low high,
     exists r, r <> NoFuel /\
       forall fuel, (Z.to_nat (high - low) <= fuel)%nat ->
         quickSort fuel arr low high = r).
Proof.
  split; [|split].
  - intros arr low high arr' pi Hlh Hp.
    apply partition_bounds in Hp; lia.
  - apply partition_fuel.
  - intros arr low high.
    exists (quickSort (Z.to_nat (high - low)) arr low high).
    assert (quickSort (Z.to_nat (high - low)) arr low high <> NoFuel) as Hno
      by (apply quickSort_fuel; lia).
    split; trivial.
    intros fuel Hf. now apply quickSort_more_fuel.
Qed.

(** ** Correctness of [partition] and [quickSort] *)


Lemma seg_all_sub (P : Developer -> Prop) (arr : list Developer) (lo hi lo' hi' : Z) :
  lo <= lo' -> hi' <= hi -> seg_all P arr lo hi -> seg_all P arr lo' hi'.
Proof. intros Hlo Hhi H k d Hk. apply H. lia. Qed.

Lemma partition_loop_spec (pivot : float) (low high : Z) (n : nat) :
  is_nan pivot = false -> 0 <= low ->
  forall arr i j,
    Z.of_nat n = high - j -> low <= j -> low - 1 <= i < j ->
    in_bounds arr high ->
    seg_all sal_ok arr low high ->
    seg_all (sal_ge pivot) arr low i ->
    seg_all (sal_le pivot) arr (i + 1) (j - 1) ->
    exists arr' i',
      partition_loop n pivot high arr i j = Ret (arr', i') /\
      low - 1 <= i' < high /\
      within low (high - 1) arr arr' /\
      seg_all (sal_ge pivot) arr' low i' /\
      seg_all (sal_le pivot) arr' (i' + 1) (high - 1).
Proof.
  intros Hpv Hlow.
  induction n as [|n IH]; intros arr i j Hn Hj Hi Hhigh Hok Hleft Hright; simpl;
    destruct (Z.leb_spec j (high - 1)) as [Hjh|Hjh]; try lia.
  - exists arr, i. replace (high - 1) with (j - 1) by lia.
    conj; trivial; try lia. apply within_refl.
  - assert (in_bounds arr j) as Hbj by (unfold in_bounds in *; lia).
    destruct (lkp_in_bounds arr j Hbj) as [dj Hdj].
    rewrite rd_lkp, Hdj. simpl.
    destruct (float_ge (dev_salary dj) pivot) eqn:Hcmp.
    + assert (in_bounds arr (i + 1)) as Hbi by (unfold in_bounds in *; lia).
      rewrite (swap_run_read arr (i + 1) j dj
                 (fun a => partition_loop n pivot high a (i + 1) (j + 1))) by trivial.
      assert (within low (high - 1) arr (swap arr (i + 1) j)) as Hw
        by (apply within_swap; trivial; lia).
      destruct (IH (swap arr (i + 1) j) (i + 1) (j + 1)) as (arr' & i' & Hrun & Hi' & Hw' & Hl' & Hr').
      * lia.
      * lia.
      * lia.
      * unfold in_bounds. rewrite length_swap. apply Hhigh.
      * apply (seg_all_within _ low high arr); trivial.
        apply (within_mono low (high - 1)); trivial; lia.
      * intros k d Hk. rewrite lkp_swap by trivial.
        destruct (Z.eqb_spec k j) as [->|Hkj].
        { replace (i + 1) with j by lia. rewrite Hdj. intros [= <-]. exact Hcmp. }
        destruct (Z.eqb_spec k (i + 1)) as [->|Hki].
        { rewrite Hdj. intros [= <-]. exact Hcmp. }
        apply Hleft. lia.
      * intros k d Hk. rewrite lkp_swap by trivial.
        destruct (Z.eqb_spec k j) as [->|Hkj].
        { apply Hright. lia. }
        destruct (Z.eqb_spec k (i + 1)) as [->|Hki]; [lia|].
        apply Hright. lia.
      * exists arr', i'. conj; trivial; try lia.
        apply (within_trans _ _ _ _ _ Hw Hw').
    + destruct (IH arr i (j + 1)) as (arr' & i' & Hrun & Hi' & Hw' & Hl' & Hr'); trivial; try lia.
      * intros k d Hk Hd.
        destruct (Z.eq_dec k j) as [->|Hkj].
        { rewrite Hdj in Hd. injection Hd as <-.
          apply float_ge_total; trivial. apply (Hok j dj); trivial. lia. }
        apply (Hright k d); trivial. lia.
      * exists arr', i'. conj; trivial; lia.
Qed.

Lemma partition_spec (arr : list Developer) (low high : Z) :
  0 <= low -> low <= high -> in_bounds arr high ->
  seg_all sal_ok arr low high ->
  exists arr' pi p,
    partition arr low high = Ret (arr', pi) /\
    low <= pi <= high /\
    within low high arr arr' /\
    lkp arr' pi = Some p /\
    seg_all (sal_ge (dev_salary p)) arr' low (pi - 1) /\
    seg_all (sal_le (dev_salary p)) arr' (pi + 1) high.
Proof.
  intros Hlow Hlh Hhigh Hok. unfold partition.
  destruct (lkp_in_bounds arr high Hhigh) as [ph Hph].
  rewrite rd_lkp, Hph. simpl.
  destruct (partition_loop_spec (dev_salary ph) low high (Z.to_nat (high - low))
              (Hok high ph ltac:(lia) Hph) Hlow arr (low - 1) low)
    as (arr1 & i1 & Hrun & Hi1 & Hw1 & Hl1 & Hr1); trivial; try lia.
  { intros k d Hk. lia. }
  { intros k d Hk. lia. }
  rewrite Hrun. simpl.
  assert (in_bounds arr1 high) as Hb1 by (apply (within_in_bounds _ _ _ _ _ Hw1); trivial).
  assert (in_bounds arr1 (i1 + 1)) as Hb2 by (unfold in_bounds in *; lia).
  assert (lkp arr1 high = Some ph) as Hph1.
  { destruct Hw1 as (_ & Ho & _). rewrite Ho; [trivial|lia]. }
  rewrite (swap_run arr1 (i1 + 1) high (fun a => Ret (a, i1 + 1))) by trivial.
  exists (swap arr1 (i1 + 1) high), (i1 + 1), ph.
  split; [reflexivity|]. split; [lia|]. split; [|split; [|split]].
  - apply (within_trans _ _ _ arr1).
    + apply (within_mono low (high - 1)); trivial; lia.
    + apply within_swap; trivial; lia.
  - rewrite lkp_swap by trivial.
    destruct (Z.eqb_spec (i1 + 1) high) as [He|He]; [now rewrite He|].
    now rewrite Z.eqb_refl.
  - intros k d Hk. rewrite lkp_swap by trivial.
    destruct (Z.eqb_spec k high); [lia|].
    destruct (Z.eqb_spec k (i1 + 1)); [lia|].
    apply Hl1. lia.
  - intros k d Hk. rewrite lkp_swap by trivial.
    destruct (Z.eqb_spec k high) as [->|Hkh].
    { apply Hr1. lia. }
    destruct (Z.eqb_spec k (i1 + 1)); [lia|].
    apply Hr1. lia.
Qed.

Lemma sorted_seg_outside (lo hi l h : Z) (a b : list Developer) :
  within lo hi a b -> (h < lo \/ hi < l) -> sorted_seg a l h -> sorted_seg b l h.
Proof.
  intros (_ & Ho & _) Hd Ha x y dx dy Hx Hxy Hy Hdx Hdy.
  apply (Ha x y); trivial.
  - rewrite <- Ho; [trivial|lia].
  - rewrite <- Ho; [trivial|lia].
Qed.

Lemma quickSort_spec (fuel : nat) :
  forall arr low high,
    0 <= low -> high < Z.of_nat (length arr) -> high - low <= Z.of_nat fuel ->
    seg_all sal_ok arr low high ->
    exists arr',
      quickSort fuel arr low high = Ret arr' /\
      within low high arr arr' /\
      sorted_seg arr' low high.
Proof.
  induction fuel as [|fuel IH]; intros arr low high Hlow Hhigh Hf Hok; simpl;
    destruct (Z.ltb_spec low high) as [Hlh|Hlh]; try lia;
    try (exists arr; split; [reflexivity|]; split; [apply within_refl|];
         intros a b da db; lia).
  destruct (partition_spec arr low high Hlow ltac:(lia) ltac:(unfold in_bounds; lia) Hok)
    as (arr1 & pi & p & Hp & Hpi & Hw1 & Hp1 & Hl1 & Hr1).
  rewrite Hp. simpl.
  assert (seg_all sal_ok arr1 low high) as Hok1 by (apply (seg_all_within _ _ _ arr); trivial).
  assert (length arr1 = length arr) as Hlen1 by apply Hw1.
  destruct (IH arr1 low (pi - 1)) as (arr2 & Hq2 & Hw2 & Hs2); trivial; try lia.
  { apply (seg_all_sub _ _ low high); trivial; lia. }
  rewrite Hq2. simpl.
  assert (length arr2 = length arr1) as Hlen2 by apply Hw2.
  destruct (IH arr2 (pi + 1) high) as (arr3 & Hq3 & Hw3 & Hs3); trivial; try lia.
  { apply (seg_all_outside _ low (pi - 1) _ _ arr1); trivial; [lia|].
    apply (seg_all_sub _ _ low high); trivial; lia. }
  exists arr3. split; [exact Hq3|]. split.
  - apply (within_trans _ _ _ arr1); trivial.
    apply (within_trans _ _ _ arr2).
    + apply (within_mono low (pi - 1)); trivial; lia.
    + apply (within_mono (pi + 1) high); trivial; lia.
  - assert (seg_all (sal_ge (dev_salary p)) arr3 low (pi - 1)) as Hl3.
    { apply (seg_all_outside _ (pi + 1) high _ _ arr2); trivial; [lia|].
      apply (seg_all_within _ _ _ arr1); trivial. }
    assert (seg_all (sal_le (dev_salary p)) arr3 (pi + 1) high) as Hr3.
    { apply (seg_all_within _ _ _ arr2); trivial.
      apply (seg_all_outside _ low (pi - 1) _ _ arr1); trivial. lia. }
    assert (lkp arr3 pi = Some p) as Hp3.
    { destruct Hw3 as (_ & Ho3 & _). rewrite Ho3 by lia.
      destruct Hw2 as (_ & Ho2 & _). rewrite Ho2 by lia. exact Hp1. }
    assert (sorted_seg arr3 low (pi - 1)) as Hs2'.
    { apply (sorted_seg_outside (pi + 1) high _ _ arr2); trivial. lia. }
    intros a b da db Ha Hab Hb Hda Hdb.
    destruct (Z_lt_dec b pi) as [Hbp|Hbp].
    { apply (Hs2' a b); trivial. lia. }
    destruct (Z_lt_dec pi a) as [Hap|Hap].
    { apply (Hs3 a b); trivial. lia. }
    assert (float_ge (dev_salary da) (dev_salary p) = true) as Hdap.
    { destruct (Z.eq_dec a pi) as [->|Hne].
      - rewrite Hp3 in Hda. injection Hda as <-.
        apply float_ge_refl. apply (Hok1 pi p); [lia|trivial].
      - apply (Hl3 a da); trivial. lia. }
    assert (float_ge (dev_salary p) (dev_salary db) = true) as Hpdb.
    { destruct (Z.eq_dec b pi) as [->|Hne].
      - rewrite Hp3 in Hdb. injection Hdb as <-.
        apply float_ge_refl. apply (Hok1 pi p); [lia|trivial].
      - apply (Hr3 b db); trivial. lia. }
    apply (float_ge_trans _ _ _ Hdap Hpdb).
Qed.

(** On a range that is already in order [partition] exchanges each slot
    with itself and returns [high]. *)
Lemma partition_loop_sorted (arr : list Developer) (low high : Z) (ph : Developer) (n : nat) :
  sorted_seg arr low high -> 0 <= low -> lkp arr high = Some ph ->
  forall j, Z.of_nat n = high - j -> low <= j ->
    partition_loop n (dev_salary ph) high arr (j - 1) j = Ret (arr, high - 1).
Proof.
  intros Hs Hlow Hph. pose proof (lkp_Some _ _ _ Hph) as Hbh.
  induction n as [|n IH]; intros j Hn Hj; simpl;
    destruct (Z.leb_spec j (high - 1)) as [Hjh|Hjh]; try lia.
  - do 2 f_equal. lia.
  - assert (in_bounds arr j) as Hbj by (unfold in_bounds in *; lia).
    destruct (lkp_in_bounds arr j Hbj) as [dj Hdj].
    rewrite rd_lkp, Hdj. simpl.
    rewrite (Hs j high dj ph) by (trivial; lia).
    replace (j - 1 + 1) with j by lia.
    rewrite (swap_run_read arr j j dj
               (fun a => partition_loop n (dev_salary ph) high a j (j + 1))) by trivial.
    rewrite swap_same.
    replace j with (j + 1 - 1) at 1 by lia.
    apply IH; lia.
Qed.

Lemma partition_sorted (arr : list Developer) (low high : Z) :
  sorted_seg arr low high -> 0 <= low -> low <= high -> in_bounds arr high ->
  partition arr low high = Ret (arr, high).
Proof.
  intros Hs Hlow Hlh Hbh. unfold partition.
  destruct (lkp_in_bounds arr high Hbh) as [ph Hph].
  rewrite rd_lkp, Hph. simpl.
  rewrite (partition_loop_sorted arr low high ph (Z.to_nat (high - low)) Hs Hlow Hph low)
    by lia.
  simpl. replace (high - 1 + 1) with high by lia.
  rewrite (swap_run arr high high (fun a => Ret (a, high))) by trivial.
  now rewrite swap_same.
Qed.

Lemma sorted_seg_sub (arr : list Developer) (lo hi lo' hi' : Z) :
  lo <= lo' -> hi' <= hi -> sorted_seg arr lo hi -> sorted_seg arr lo' hi'.
Proof. intros Hlo Hhi H a b da db Ha Hab Hb. apply H; lia. Qed.

Lemma quickSort_sorted (fuel : nat) :
  forall arr low high,
    0 <= low -> high < Z.of_nat (length arr) -> high - low <= Z.of_nat fuel ->
    sorted_seg arr low high ->
    quickSort fuel arr low high = Ret arr.
Proof.
  induction fuel as [|fuel IH]; intros arr low high Hlow Hhigh Hf Hs; simpl;
    destruct (Z.ltb_spec low high) as [Hlh|Hlh]; trivial; try lia.
  rewrite (partition_sorted arr low high) by (trivial; unfold in_bounds; lia).
  simpl. rewrite IH; trivial; try lia.
  - simpl. destruct fuel; simpl; destruct (Z.ltb_spec (high + 1) high); trivial; lia.
  - apply (sorted_seg_sub _ low high); trivial; lia.
Qed.

(** ** The sort of the dynamic array *)

Lemma no_nan_seg (devs : list Developer) (lo hi : Z) :
  no_nan devs -> seg_all sal_ok devs lo hi.
Proof.
  intros Hn k d _ Hd. apply Hn. unfold lkp in Hd.
  destruct (0 <=? k); [|discriminate]. now apply list_elem_of_lookup_2 in Hd.
Qed.

Lemma sorted_seg_non_increasing (devs : list Developer) :
  sorted_seg devs 0 (Z.of_nat (length devs) - 1) -> non_increasing (salaries devs).
Proof.
  intros Hs i j a b Hij Ha Hb. unfold salaries in *.
  rewrite list_lookup_fmap in Ha, Hb.
  destruct (devs !! i) as [da|] eqn:Hda; [|discriminate].
  destruct (devs !! j) as [db|] eqn:Hdb; [|discriminate].
  injection Ha as <-. injection Hb as <-.
  pose proof (lookup_lt_Some _ _ _ Hdb) as Hlt.
  apply (Hs (Z.of_nat i) (Z.of_nat j)); try lia; unfold lkp.
  - destruct (Z.leb_spec 0 (Z.of_nat i)); [|lia]. now rewrite Nat2Z.id.
  - destruct (Z.leb_spec 0 (Z.of_nat j)); [|lia]. now rewrite Nat2Z.id.
Qed.

Lemma non_increasing_short (fs : list float) :
  (length fs <= 1)%nat -> non_increasing fs.
Proof.
  intros Hl i j a b Hij Ha Hb.
  apply lookup_lt_Some in Hb. lia.
Qed.

(** C3, the claim as stated does not hold: with a NaN salary in the array
    one sort leaves the salaries 2, 1, NaN, where 1 is not [>=] NaN, and a
    second sort moves the records again. *)
Lemma sortDevelopersBySalary_nan_counterexample :
  wf_array arr_nan /\ Forall is_Developer (arr_developers arr_nan) /\
  exists arr1 out1 arr2 out2,
    sortDevelopersBySalary arr_nan [] = Ret (arr1, out1) /\
    sortDevelopersBySalary arr1 out1 = Ret (arr2, out2) /\
    map dev_id (arr_developers arr1) = [2; 1; 9] /\
    map dev_id (arr_developers arr2) = [9; 2; 1] /\
    arr_developers arr2 <> arr_developers arr1 /\
    ~ non_increasing (salaries (arr_developers arr1)).
Proof.
  split; [split; simpl; lia|].
  split; [repeat constructor; now vm_compute|].
  eexists _, _, _, _. split; [vm_compute; reflexivity|].
  split; [vm_compute; reflexivity|].
  split; [reflexivity|]. split; [reflexivity|]. split; [discriminate|].
  intros H.
  specialize (H 1%nat 2%nat (float_of_Z 1) S754_nan ltac:(lia) eq_refl eq_refl).
  discriminate H.
Qed.

(** C3, amended: for every array none of whose salaries is NaN, after
    [sortDevelopersBySalary] the salaries read from index 0 upward never go
    up, and sorting the result again returns the very same array, so that
    sorting twice yields the same sequence of records as sorting once. *)
Theorem sortDevelopersBySalary_idempotent (arr : DynamicArray) (out : list event) :
  wf_array arr -> no_nan (arr_developers arr) ->
  exists arr1 out1,
    sortDevelopersBySalary arr out = Ret (arr1, out1) /\
    non_increasing (salaries (arr_developers arr1)) /\
    forall out', exists out2,
      sortDevelopersBySalary arr1 out' = Ret (arr1, out2).
Proof.
  intros [Hsz Hcap] Hnan. unfold sortDevelopersBySalary.
  destruct (Z.gtb_spec (arr_size arr) 1) as [Hgt|Hle].
  - destruct (quickSort_spec (Z.to_nat (arr_size arr)) (arr_developers arr)
                0 (arr_size arr - 1)) as (devs1 & Hq & Hw & Hs); try lia.
    { now apply no_nan_seg. }
    unfold lift, M_bind, printf, M_ret. rewrite Hq.
    eexists _, _. split; [reflexivity|]. simpl.
    assert (length devs1 = length (arr_developers arr)) as Hlen by apply Hw.
    split.
    + apply sorted_seg_non_increasing. rewrite Hlen, <- Hsz. exact Hs.
    + intros out'. destruct (Z.gtb_spec (arr_size arr) 1) as [_|]; [|lia].
      rewrite quickSort_sorted; trivial; try lia.
      eexists. reflexivity.
  - unfold M_ret. eexists _, _. split; [reflexivity|]. split.
    + apply non_increasing_short. unfold salaries. rewrite length_map. lia.
    + intros out'. destruct (Z.gtb_spec (arr_size arr) 1) as [|_]; [lia|].
      eexists. reflexivity.
Qed.

Lemma sortDevelopersBySalary_idempotent_witness :
  wf_array arr_demo /\
  exists arr1 out1,
    sortDevelopersBySalary arr_demo [] = Ret (arr1, out1) /\
    non_increasing (salaries (arr_developers arr1)) /\
    forall out', exists out2,
      sortDevelopersBySalary arr1 out' = Ret (arr1, out2).
Proof.
  assert (wf_array arr_demo) as Hwf by (split; simpl; lia).
  split; [exact Hwf|].
  apply (sortDevelopersBySalary_idempotent arr_demo [] Hwf).
  intros d Hd. simpl in Hd.
  repeat (apply elem_of_cons in Hd as [->|Hd]; [reflexivity|]).
  inversion Hd.
Defined.

(** The scenario of the specification: appended to an array of capacity 2,
    the four records of [main] make it grow once, to capacity 4. *)
Example addDevelopers_demo :
  addDevelopers (createDynamicArray 2) (arr_developers arr_demo) [] =
  Ret (arr_demo, [EvResized 4]).
Proof. reflexivity. Qed.

(** An array created with capacity 0 is full at once: the first append
    asks [realloc] for no bytes, and the process ends before anything is
    stored or printed. *)
Example addDeveloper_capacity_0 :
  addDeveloper (createDynamicArray 0) dev_ok [] = Exit.
Proof. reflexivity. Qed.

(** Sorted, the four records come out in the order 2, 4, 1, 3. *)
Example sortDevelopersBySalary_demo :
  exists arr1 out1,
    sortDevelopersBySalary arr_demo [] = Ret (arr1, out1) /\
    map dev_id (arr_developers arr1) = [2; 4; 1; 3].
Proof. eexists _, _. split; [vm_compute; reflexivity | reflexivity]. Qed.

Lemma quickSort_terminates_witness :
  0 < 3 /\
  exists arr' pi,
    partition (arr_developers arr_demo) 0 3 = Ret (arr', pi) /\
    0 <= pi <= 3 /\ (pi - 1) - 0 < 3 - 0 /\ 3 - (pi + 1) < 3 - 0.
Proof.
  split; [lia|].
  eexists _, _. split; [vm_compute; reflexivity|].
  eapply (proj1 quickSort_terminates (arr_developers arr_demo) 0 3); [lia|].
  vm_compute; reflexivity.
Defined.

(** * Further properties of the stores *)

(** ** Linked list: lookup, insertion and the safe insertion *)

Lemma findDeveloperById_loop_cons (d : Developer) (chain : list Developer) (id : Z) :
  findDeveloperById_loop (d :: chain) id =
  if dev_id d =? id then Some d else findDeveloperById_loop chain id.
Proof. reflexivity. Qed.

Lemma findDeveloperById_loop_None (chain : list Developer) (id : Z) :
  findDeveloperById_loop chain id = None <-> forall d, d ∈ chain -> dev_id d <> id.
Proof.
  pose proof (findDeveloperById_loop_first chain id) as H.
  destruct (findDeveloperById_loop chain id) as [r|].
  - destruct H as (pre & post & -> & Hr & _). split; [discriminate|].
    intros Hn. exfalso. apply (Hn r); trivial.
    apply elem_of_app. right. apply list_elem_of_here.
  - tauto.
Qed.

Lemma findDeveloperById_loop_Some (chain : list Developer) (id : Z) (r : Developer) :
  findDeveloperById_loop chain id = Some r -> r ∈ chain /\ dev_id r = id.
Proof.
  intros Hf. pose proof (findDeveloperById_loop_first chain id) as H.
  rewrite Hf in H. destruct H as (pre & post & -> & Hr & _). split; trivial.
  apply elem_of_app. right. apply list_elem_of_here.
Qed.

(** X1: [findDeveloperById] returns [NULL] exactly when no node of the list
    has the identity asked for, and a record it returns is a node of the
    list with that identity. *)
Theorem findDeveloperById_sound_complete (l : LinkedList) (id : Z) :
  (findDeveloperById l id = None <-> forall d, d ∈ ll_head l -> dev_id d <> id) /\
  (forall r, findDeveloperById l id = Some r -> r ∈ ll_head l /\ dev_id r = id).
Proof.
  split.
  - apply findDeveloperById_loop_None.
  - apply findDeveloperById_loop_Some.
Qed.

(** X2: after [insertDeveloper] the new record is the one found under its
    identity, also when older nodes carry the same identity; the lookups of
    all other identities are as before; the size has grown by one and the
    name of the record has been printed. *)
Theorem insertDeveloper_then_find (l : LinkedList) (dev : Developer) (out : list event) :
  exists l',
    insertDeveloper l dev out = Ret (l', out ++ [EvAdded (cstr (dev_name dev))]) /\
    findDeveloperById l' (dev_id dev) = Some dev /\
    (forall id, id <> dev_id dev -> findDeveloperById l' id = findDeveloperById l id) /\
    ll_size l' = ll_size l + 1 /\
    (wf_list l -> wf_list l').
Proof.
  eexists. split; [reflexivity|]. unfold findDeveloperById, wf_list. simpl.
  rewrite Z.eqb_refl. split; [reflexivity|]. split; [|split; [reflexivity|lia]].
  intros id Hid. destruct (Z.eqb_spec (dev_id dev) id); congruence.
Qed.

Lemma safeDeveloperInsert_cases (l : LinkedList) (dev : Developer) (out : list event)
    (code : Z) (l' : LinkedList) (out' : list event) :
  safeDeveloperInsert l dev out = Ret (code, l', out') ->
  (code = -1 /\ l' = l /\
   (validateDeveloper (Some dev) = false \/
    exists r, findDeveloperById l (dev_id dev) = Some r)) \/
  (code = 0 /\ validateDeveloper (Some dev) = true /\
   findDeveloperById l (dev_id dev) = None /\
   l' = {| ll_head := dev :: ll_head l; ll_size := ll_size l + 1 |}).
Proof.
  unfold safeDeveloperInsert.
  destruct (validateDeveloper (Some dev)); simpl.
  - destruct (findDeveloperById l (dev_id dev)) as [r|] eqn:Hf.
    + intros [= <- <- <-]. left. eauto.
    + intros [= <- <- <-]. right. auto.
  - intros [= <- <- <-]. left. auto.
Qed.

(** X3: [safeDeveloperInsert] returns 0 exactly when the record passes the
    validator and no node has its identity; then the record is found under
    its identity afterwards. Whatever it returns, the lookup of every other
    identity is unchanged, and on -1 the list is the one passed in. *)
Theorem safeDeveloperInsert_success_iff (l : LinkedList) (dev : Developer)
    (out : list event) (code : Z) (l' : LinkedList) (out' : list event) :
  safeDeveloperInsert l dev out = Ret (code, l', out') ->
  (code = 0 <->
   validateDeveloper (Some dev) = true /\
   forall d, d ∈ ll_head l -> dev_id d <> dev_id dev) /\
  (code = 0 -> findDeveloperById l' (dev_id dev) = Some dev) /\
  (code <> 0 -> code = -1 /\ l' = l) /\
  (forall id, id <> dev_id dev -> findDeveloperById l' id = findDeveloperById l id).
Proof.
  intros H. apply safeDeveloperInsert_cases in H.
  destruct H as [(-> & -> & Hwhy)|(-> & Hv & Hf & ->)].
  - split; [|split; [|split]]; try discriminate; auto.
    split; [discriminate|]. intros [Hv Hn]. exfalso.
    destruct Hwhy as [Hv'|[r Hr]]; [congruence|].
    apply findDeveloperById_loop_Some in Hr as [Hin Hid]. exact (Hn r Hin Hid).
  - split; [|split; [|split]].
    + split; [|reflexivity]. intros _. split; trivial.
      now apply findDeveloperById_loop_None.
    + intros _. unfold findDeveloperById. simpl. now rewrite Z.eqb_refl.
    + intros Hc. now contradiction Hc.
    + intros id Hid. unfold findDeveloperById. simpl.
      destruct (Z.eqb_spec (dev_id dev) id); congruence.
Qed.

Lemma safeDeveloperInsert_success_iff_witness :
  (0 = 0 <->
   validateDeveloper (Some dev_ok) = true /\
   forall d, d ∈ ll_head createLinkedList -> dev_id d <> dev_id dev_ok) /\
  (0 = 0 ->
   findDeveloperById {| ll_head := [dev_ok]; ll_size := 0 + 1 |} (dev_id dev_ok) =
   Some dev_ok) /\
  (0 <> 0 -> 0 = -1 /\ {| ll_head := [dev_ok]; ll_size := 0 + 1 |} = createLinkedList) /\
  (forall id, id <> dev_id dev_ok ->
     findDeveloperById {| ll_head := [dev_ok]; ll_size := 0 + 1 |} id =
     findDeveloperById createLinkedList id).
Proof.
  apply (safeDeveloperInsert_success_iff createLinkedList dev_ok []
           0 {| ll_head := [dev_ok]; ll_size := 0 + 1 |}
           [EvAdded (cstr (dev_name dev_ok))]).
  reflexivity.
Defined.

(** X4: [safeDeveloperInsert] keeps the invariants of a list of records:
    when the recorded size is the length of the chain, the identities are
    pairwise distinct and every node passes the validator, the same holds
    of the list it leaves, whatever record it was given. The empty list
    has the three properties. *)
Theorem safeDeveloperInsert_invariant (l : LinkedList) (dev : Developer)
    (out : list event) (code : Z) (l' : LinkedList) (out' : list event) :
  wf_list l -> unique_ids (ll_head l) -> all_valid (ll_head l) ->
  safeDeveloperInsert l dev out = Ret (code, l', out') ->
  wf_list l' /\ unique_ids (ll_head l') /\ all_valid (ll_head l') /\
  wf_list createLinkedList /\ unique_ids (ll_head createLinkedList) /\
  all_valid (ll_head createLinkedList).
Proof.
  intros Hwf Hu Hv H.
  assert (wf_list createLinkedList /\ unique_ids (ll_head createLinkedList) /\
          all_valid (ll_head createLinkedList)) as Hempty.
  { split; [reflexivity|]. split; [apply NoDup_nil_2|]. intros d Hd. inversion Hd. }
  apply safeDeveloperInsert_cases in H.
  destruct H as [(-> & -> & _)|(-> & Hvd & Hf & ->)]; [tauto|].
  split; [|split; [|split; [|exact Hempty]]].
  - unfold wf_list in *. simpl. lia.
  - unfold unique_ids in *. simpl. apply NoDup_cons_2; trivial.
    intros Hin. apply list_elem_of_fmap in Hin as (d & Hid & Hd).
    apply (proj1 (findDeveloperById_loop_None _ _) Hf d Hd). congruence.
  - intros d Hd. simpl in Hd. apply elem_of_cons in Hd as [->|Hd]; auto.
Qed.

Lemma safeDeveloperInsert_invariant_witness :
  wf_list {| ll_head := [dev_ok]; ll_size := 0 + 1 |} /\
  unique_ids (ll_head {| ll_head := [dev_ok]; ll_size := 0 + 1 |}) /\
  all_valid (ll_head {| ll_head := [dev_ok]; ll_size := 0 + 1 |}) /\
  wf_list createLinkedList /\ unique_ids (ll_head createLinkedList) /\
  all_valid (ll_head createLinkedList).
Proof.
  apply (safeDeveloperInsert_invariant createLinkedList dev_ok []
           0 {| ll_head := [dev_ok]; ll_size := 0 + 1 |}
           [EvAdded (cstr (dev_name dev_ok))]).
  - reflexivity.
  - apply NoDup_nil_2.
  - intros d Hd. inversion Hd.
  - reflexivity.
Defined.

(** X5: a second [safeDeveloperInsert] of the same record never succeeds:
    whatever the first call returned, the second returns -1 and leaves the
    list as the first call left it. *)
Theorem safeDeveloperInsert_twice (l : LinkedList) (dev : Developer)
    (out : list event) (code : Z) (l' : LinkedList) (out' : list event) :
  safeDeveloperInsert l dev out = Ret (code, l', out') ->
  exists ev, safeDeveloperInsert l' dev out' = Ret (-1, l', out' ++ [ev]).
Proof.
  intros H. apply safeDeveloperInsert_cases in H.
  unfold safeDeveloperInsert.
  destruct H as [(-> & -> & [Hv|[r Hr]])|(-> & Hv & Hf & ->)].
  - rewrite Hv. simpl. eexists. reflexivity.
  - destruct (validateDeveloper (Some dev)); simpl.
    + rewrite Hr. eexists. reflexivity.
    + eexists. reflexivity.
  - rewrite Hv. unfold findDeveloperById. simpl. rewrite Z.eqb_refl.
    eexists. reflexivity.
Qed.

Lemma safeDeveloperInsert_twice_witness :
  exists ev,
    safeDeveloperInsert {| ll_head := [dev_ok]; ll_size := 0 + 1 |} dev_ok
      [EvAdded (cstr (dev_name dev_ok))] =
    Ret (-1, {| ll_head := [dev_ok]; ll_size := 0 + 1 |},
         [EvAdded (cstr (dev_name dev_ok))] ++ [ev]).
Proof.
  apply (safeDeveloperInsert_twice createLinkedList dev_ok [] 0). reflexivity.
Defined.

(** ** Hash table: bucket indices, lookup after insertion *)

Lemma hash_range (key : Z) :
  (0 <= hash key < HASH_TABLE_SIZE <-> 0 <= key \/ Z.rem key HASH_TABLE_SIZE = 0) /\
  (0 <= key -> hash key = key mod HASH_TABLE_SIZE) /\
  (Z.rem key HASH_TABLE_SIZE = 0 -> hash key = 0) /\
  (key < 0 -> Z.rem key HASH_TABLE_SIZE <> 0 ->
   hash key = 2 ^ 32 + Z.rem key HASH_TABLE_SIZE /\ 2 ^ 32 - HASH_TABLE_SIZE < hash key).
Proof.
  assert (Z.rem key HASH_TABLE_SIZE = 0 -> hash key = 0) as Hzero.
  { intros Hr. unfold hash. now rewrite Hr. }
  split; [|split; [|split]]; trivial.
  - split.
    + intros Hh. destruct (Z_le_dec 0 key) as [|Hneg]; [now left|right].
      destruct (Z.eq_dec (Z.rem key HASH_TABLE_SIZE) 0) as [|Hr]; trivial.
      destruct (hash_negative key ltac:(lia) Hr) as [_ Hbig].
      unfold HASH_TABLE_SIZE in *. lia.
    + intros [Hk|Hr].
      * destruct (hash_nonneg key Hk). unfold HASH_TABLE_SIZE. lia.
      * rewrite (Hzero Hr). unfold HASH_TABLE_SIZE. lia.
  - intros Hk. now apply hash_nonneg.
  - intros Hk Hr. destruct (hash_negative key Hk Hr) as [He _]. split; trivial.
    rewrite He. unfold HASH_TABLE_SIZE in *.
    pose proof (Z.rem_bound_pos_neg key 101 ltac:(lia) ltac:(lia)). lia.
Qed.

(** X6: [hash] yields the index of one of the 101 buckets exactly for the
    keys that are not negative, where it is [key mod 101], and for the
    negative multiples of 101, where it is 0; for every other negative key
    it is [2^32 + key rem 101], beyond the last bucket. *)
Theorem hash_bucket_iff (key : Z) :
  (0 <= hash key < HASH_TABLE_SIZE <-> 0 <= key \/ Z.rem key HASH_TABLE_SIZE = 0) /\
  (0 <= key -> hash key = key mod HASH_TABLE_SIZE) /\
  (Z.rem key HASH_TABLE_SIZE = 0 -> hash key = 0) /\
  (key < 0 -> Z.rem key HASH_TABLE_SIZE <> 0 ->
   hash key = 2 ^ 32 + Z.rem key HASH_TABLE_SIZE /\ 2 ^ 32 - HASH_TABLE_SIZE < hash key).
Proof. apply hash_range. Qed.

Lemma hash_bucket_iff_witness :
  hash 205 = 205 mod HASH_TABLE_SIZE /\
  hash (-202) = 0 /\
  hash (-7) = 2 ^ 32 + Z.rem (-7) HASH_TABLE_SIZE.
Proof.
  split; [apply (proj1 (proj2 (hash_bucket_iff 205))); lia|].
  split; [apply (proj1 (proj2 (proj2 (hash_bucket_iff (-202))))); reflexivity|].
  apply (proj2 (proj2 (proj2 (hash_bucket_iff (-7))))); [lia | discriminate].
Defined.



(** X8: in a table of 101 buckets, after [hashInsert] under a key that is
    not negative a search for this key returns the record just inserted,
    and a search for any other key, colliding or not, returns what it
    returned before. *)
Theorem hashInsert_then_search (table : HashTable) (key : Z) (dev : Developer) :
  wf_table table -> 0 <= key ->
  exists table',
    hashInsert table key dev = Ret table' /\
    wf_table table' /\
    hashSearch table' key = Ret (Some dev) /\
    forall key', key' <> key -> hashSearch table' key' = hashSearch table key'.
Proof. apply hashInsert_run. Qed.

Lemma hashInsert_then_search_witness :
  exists table',
    hashInsert createHashTable 102 dev_ok = Ret table' /\
    wf_table table' /\
    hashSearch table' 102 = Ret (Some dev_ok) /\
    forall key', key' <> 102 -> hashSearch table' key' = hashSearch createHashTable key'.
Proof.
  apply (hashInsert_then_search createHashTable 102 dev_ok); [reflexivity|lia].
Defined.

Lemma hashSearch_createHashTable (key : Z) :
  0 <= key -> hashSearch createHashTable key = Ret None.
Proof.
  intros Hk. unfold hashSearch, createHashTable. cbn [buckets].
  destruct (hash_nonneg key Hk) as [_ Hh].
  destruct (Z.ltb_spec (hash key) HASH_TABLE_SIZE) as [Hlt|Hge];
    [|unfold HASH_TABLE_SIZE in Hge; lia].
  rewrite lookup_replicate_2; [reflexivity|].
  unfold HASH_TABLE_SIZE in *. lia.
Qed.

Lemma hashInserts_run (devs : list Developer) :
  forall (table : HashTable) (chain : list Developer),
    wf_table table ->
    (forall d, d ∈ devs -> 0 <= dev_id d) ->
    (forall key, 0 <= key -> hashSearch table key = Ret (findDeveloperById_loop chain key)) ->
    exists table',
      hashInserts table devs = Ret table' /\ wf_table table' /\
      forall key, 0 <= key ->
        hashSearch table' key = Ret (findDeveloperById_loop (rev devs ++ chain) key).
Proof.
  induction devs as [|d devs IH]; intros table chain Hwf Hids Hinv; simpl.
  - exists table. auto.
  - destruct (hashInsert_run table (dev_id d) d Hwf) as (t1 & Hi & Hwf1 & Hs & Ho).
    { apply Hids. apply list_elem_of_here. }
    rewrite Hi. simpl.
    destruct (IH t1 (d :: chain) Hwf1) as (t2 & Hrun & Hwf2 & Hinv2).
    + intros x Hx. apply Hids. now apply list_elem_of_further.
    + intros key Hkey. rewrite findDeveloperById_loop_cons.
      destruct (Z.eqb_spec (dev_id d) key) as [<-|Hne]; trivial.
      rewrite Ho by congruence. now apply Hinv.
    + exists t2. rewrite <- app_assoc. auto.
Qed.

(** X9: the hash table and the linked list answer alike. When the records
    [devs], whose identities are not negative, are inserted one by one into
    a new hash table under their identities and into an empty list, then
    for every key that is not negative [hashSearch] returns the record
    [findDeveloperById] returns: the last one inserted with this identity,
    or [NULL] when there is none. *)
Theorem hashSearch_agrees_with_list (devs : list Developer) (out : list event) :
  (forall d, d ∈ devs -> 0 <= dev_id d) ->
  exists table l out',
    hashInserts createHashTable devs = Ret table /\
    insertDevelopers createLinkedList devs out = Ret (l, out') /\
    forall key, 0 <= key ->
      hashSearch table key = Ret (findDeveloperById l key) /\
      (findDeveloperById l key = None <-> forall d, d ∈ devs -> dev_id d <> key).
Proof.
  intros Hids.
  destruct (hashInserts_run devs createHashTable [] createHashTable_wf Hids)
    as (table & Hrun & _ & Hinv).
  { intros key Hkey. now apply hashSearch_createHashTable. }
  rewrite insertDevelopers_run. eexists table, _, _.
  split; [exact Hrun|]. split; [reflexivity|].
  intros key Hkey. unfold findDeveloperById. simpl. split; [now apply Hinv|].
  rewrite findDeveloperById_loop_None. rewrite app_nil_r.
  split; intros H d Hd; apply H.
  - apply list_elem_of_In, in_rev. rewrite rev_involutive. now apply list_elem_of_In.
  - apply list_elem_of_In, in_rev in Hd. now apply list_elem_of_In.
Qed.

Lemma hashSearch_agrees_with_list_witness :
  exists table l out',
    hashInserts createHashTable [dev_ok; dev_nan] = Ret table /\
    insertDevelopers createLinkedList [dev_ok; dev_nan] [] = Ret (l, out') /\
    forall key, 0 <= key ->
      hashSearch table key = Ret (findDeveloperById l key) /\
      (findDeveloperById l key = None <->
       forall d, d ∈ [dev_ok; dev_nan] -> dev_id d <> key).
Proof.
  apply (hashSearch_agrees_with_list [dev_ok; dev_nan] []).
  intros d Hd.
  apply elem_of_cons in Hd as [->|Hd]; [simpl; lia|].
  apply elem_of_cons in Hd as [->|Hd]; [simpl; lia|].
  inversion Hd.
Defined.

(** ** Dynamic array: growth *)

(** X10: one [addDeveloper] on an array that keeps its invariant and
    whose capacity is an [int]. With capacity 0 the array is full and
    [realloc] is asked for no bytes: the process ends. When the array is
    full and twice the capacity is beyond [INT_MAX], the doubling
    overflows. Otherwise the call returns, and it reallocates exactly when
    the array is full: then the capacity doubles and the new capacity is
    printed; else the capacity stays and nothing is printed. When it
    returns, the record is in the slot after the last one, the slots
    before it keep their records, the size has grown by one, and the
    invariant holds again with a capacity that is an [int]. *)
Theorem addDeveloper_step (arr : DynamicArray) (dev : Developer) (out : list event) :
  wf_array arr -> arr_capacity arr <= INT_MAX ->
  (arr_capacity arr = 0 -> addDeveloper arr dev out = Exit) /\
  (arr_size arr = arr_capacity arr -> INT_MAX < arr_capacity arr * 2 ->
   addDeveloper arr dev out = Undef) /\
  (1 <= arr_capacity arr ->
   ~ (arr_size arr = arr_capacity arr /\ INT_MAX < arr_capacity arr * 2) ->
   exists arr',
     addDeveloper arr dev out =
       Ret (arr', if arr_size arr =? arr_capacity arr
                  then out ++ [EvResized (arr_capacity arr * 2)] else out) /\
     arr_capacity arr' =
       (if arr_size arr =? arr_capacity arr then arr_capacity arr * 2
        else arr_capacity arr) /\
     arr_developers arr' = arr_developers arr ++ [dev] /\
     arr_size arr' = arr_size arr + 1 /\
     wf_array arr' /\ 1 <= arr_capacity arr' <= INT_MAX).
Proof.
  intros Hwf Hmax. split; [|split].
  - intros H0. now apply addDeveloper_exit.
  - intros He Hbig. now apply addDeveloper_overflow.
  - intros Hpos Hno. exists (appended arr dev).
    split; [now apply addDeveloper_ok|].
    destruct (appended_wf arr dev Hwf Hpos) as [Hwf1 Hpos1].
    conj; trivial. unfold appended. simpl.
    destruct (Z.eqb_spec (arr_size arr) (arr_capacity arr)); lia.
Qed.

Lemma addDeveloper_step_witness :
  exists arr',
    addDeveloper (createDynamicArray 1) dev_ok [] =
      Ret (arr', if arr_size (createDynamicArray 1) =? arr_capacity (createDynamicArray 1)
                 then [] ++ [EvResized (arr_capacity (createDynamicArray 1) * 2)] else []) /\
    arr_capacity arr' =
      (if arr_size (createDynamicArray 1) =? arr_capacity (createDynamicArray 1)
       then arr_capacity (createDynamicArray 1) * 2
       else arr_capacity (createDynamicArray 1)) /\
    arr_developers arr' = arr_developers (createDynamicArray 1) ++ [dev_ok] /\
    arr_size arr' = arr_size (createDynamicArray 1) + 1 /\
    wf_array arr' /\ 1 <= arr_capacity arr' <= INT_MAX.
Proof.
  apply (proj2 (proj2 (addDeveloper_step (createDynamicArray 1) dev_ok []
                         ltac:(split; simpl; lia) ltac:(unfold INT_MAX; simpl; lia)))).
  - simpl. lia.
  - simpl. lia.
Defined.

(** X11: appending [n] records to an array created with capacity [C >= 1]
    aims at the least capacity among [C, 2C, 4C, ...] that holds [n]
    records, [C * 2^k] with [n <= C * 2^k], and [k = 0] or
    [C * 2^(k-1) < n]. When this capacity is an [int], the run returns
    with it, holds the [n] records in order, has reallocated [k] times and
    printed the capacities [2C, ..., C * 2^k] in this order. When it is
    beyond [INT_MAX], a doubling of the run overflows. *)
Theorem addDevelopers_capacity (C : Z) (devs : list Developer) (out : list event) :
  1 <= C <= INT_MAX ->
  exists k : nat,
    Z.of_nat (length devs) <= C * 2 ^ Z.of_nat k /\
    (k = O \/ C * 2 ^ Z.of_nat (pred k) < Z.of_nat (length devs)) /\
    (C * 2 ^ Z.of_nat k <= INT_MAX ->
     exists arr,
       addDevelopers (createDynamicArray C) devs out = Ret (arr, out ++ resize_events C k) /\
       arr_capacity arr = C * 2 ^ Z.of_nat k /\
       arr_developers arr = devs /\ arr_size arr = Z.of_nat (length devs)) /\
    (INT_MAX < C * 2 ^ Z.of_nat k ->
     addDevelopers (createDynamicArray C) devs out = Undef).
Proof.
  intros [HC HCmax].
  destruct (addDevelopers_create C devs out HC) as (k & Hfit & Hleast & Hret & Hundef).
  exists k. split; [exact Hfit|]. split; [exact Hleast|]. split.
  - intros Hb. destruct (Hret Hb) as (arr & Hrun & Hdevs & Hsize & Hcap & _).
    exists arr. auto.
  - intros Hbig. now apply Hundef.
Qed.

Lemma addDevelopers_capacity_witness :
  exists k : nat,
    Z.of_nat (length [dev_ok; dev_nan; dev_bad]) <= 1 * 2 ^ Z.of_nat k /\
    (k = O \/ 1 * 2 ^ Z.of_nat (pred k) < Z.of_nat (length [dev_ok; dev_nan; dev_bad])) /\
    (1 * 2 ^ Z.of_nat k <= INT_MAX ->
     exists arr,
       addDevelopers (createDynamicArray 1) [dev_ok; dev_nan; dev_bad] [] =
         Ret (arr, [] ++ resize_events 1 k) /\
       arr_capacity arr = 1 * 2 ^ Z.of_nat k /\
       arr_developers arr = [dev_ok; dev_nan; dev_bad] /\
       arr_size arr = Z.of_nat (length [dev_ok; dev_nan; dev_bad])) /\
    (INT_MAX < 1 * 2 ^ Z.of_nat k ->
     addDevelopers (createDynamicArray 1) [dev_ok; dev_nan; dev_bad] [] = Undef).
Proof.
  apply (addDevelopers_capacity 1 [dev_ok; dev_nan; dev_bad] []).
  unfold INT_MAX. lia.
Defined.

(** ** Quick sort: memory safety and permutation *)

Lemma swap_Permutation (arr : list Developer) (i j : Z) :
  in_bounds arr i -> in_bounds arr j -> swap arr i j ≡ₚ arr.
Proof.
  intros Hi Hj. unfold swap.
  destruct (lkp_in_bounds arr i Hi) as [di Hdi].
  destruct (lkp_in_bounds arr j Hj) as [dj Hdj].
  rewrite Hdi, Hdj. unfold upd, lkp, in_bounds in *.
  destruct (Z.leb_spec 0 i); [|lia]. destruct (Z.leb_spec 0 j); [|lia].
  now apply Permutation_insert_swap.
Qed.

Lemma partition_loop_safe (pivot : float) (low high : Z) (n : nat) :
  0 <= low ->
  forall arr i j,
    Z.of_nat n = high - j -> low <= j -> low - 1 <= i < j ->
    in_bounds arr high ->
    exists arr' i',
      partition_loop n pivot high arr i j = Ret (arr', i') /\
      low - 1 <= i' < high /\
      within low (high - 1) arr arr' /\
      arr' ≡ₚ arr.
Proof.
  intros Hlow.
  induction n as [|n IH]; intros arr i j Hn Hj Hi Hhigh; simpl;
    destruct (Z.leb_spec j (high - 1)) as [Hjh|Hjh]; try lia.
  - exists arr, i. conj; trivial; try lia. apply within_refl.
  - assert (in_bounds arr j) as Hbj by (unfold in_bounds in *; lia).
    destruct (lkp_in_bounds arr j Hbj) as [dj Hdj].
    rewrite rd_lkp, Hdj. simpl.
    destruct (float_ge (dev_salary dj) pivot).
    + assert (in_bounds arr (i + 1)) as Hbi by (unfold in_bounds in *; lia).
      rewrite (swap_run_read arr (i + 1) j dj
                 (fun a => partition_loop n pivot high a (i + 1) (j + 1))) by trivial.
      destruct (IH (swap arr (i + 1) j) (i + 1) (j + 1)) as (arr' & i' & Hrun & Hi' & Hw' & Hp');
        try lia.
      { unfold in_bounds. rewrite length_swap. apply Hhigh. }
      exists arr', i'. conj; trivial; try lia.
      * apply (within_trans _ _ _ (swap arr (i + 1) j)); trivial.
        apply within_swap; trivial; lia.
      * rewrite Hp'. now apply swap_Permutation.
    + destruct (IH arr i (j + 1)) as (arr' & i' & Hrun & Hi' & Hw' & Hp'); trivial; try lia.
      exists arr', i'. conj; trivial; lia.
Qed.

Lemma partition_safe (arr : list Developer) (low high : Z) :
  0 <= low -> low <= high -> in_bounds arr high ->
  exists arr' pi,
    partition arr low high = Ret (arr', pi) /\
    low <= pi <= high /\
    within low high arr arr' /\
    arr' ≡ₚ arr /\
    lkp arr' pi = lkp arr high.
Proof.
  intros Hlow Hlh Hhigh. unfold partition.
  destruct (lkp_in_bounds arr high Hhigh) as [ph Hph].
  rewrite rd_lkp, Hph. simpl.
  destruct (partition_loop_safe (dev_salary ph) low high (Z.to_nat (high - low))
              Hlow arr (low - 1) low)
    as (arr1 & i1 & Hrun & Hi1 & Hw1 & Hp1); trivial; try lia.
  rewrite Hrun. simpl.
  assert (in_bounds arr1 high) as Hb1 by (apply (within_in_bounds _ _ _ _ _ Hw1); trivial).
  assert (in_bounds arr1 (i1 + 1)) as Hb2 by (unfold in_bounds in *; lia).
  assert (lkp arr1 high = Some ph) as Hph1.
  { destruct Hw1 as (_ & Ho & _). rewrite Ho; [trivial|lia]. }
  rewrite (swap_run arr1 (i1 + 1) high (fun a => Ret (a, i1 + 1))) by trivial.
  exists (swap arr1 (i1 + 1) high), (i1 + 1).
  conj; trivial; try lia.
  - apply (within_trans _ _ _ arr1).
    + apply (within_mono low (high - 1)); trivial; lia.
    + apply within_swap; trivial; lia.
  - rewrite <- Hp1. now apply swap_Permutation.
  - rewrite lkp_swap by trivial.
    destruct (Z.eqb_spec (i1 + 1) high) as [He|He]; [now rewrite He|].
    now rewrite Z.eqb_refl.
Qed.

Lemma quickSort_safe (fuel : nat) :
  forall arr low high,
    0 <= low -> high < Z.of_nat (length arr) -> high - low <= Z.of_nat fuel ->
    exists arr',
      quickSort fuel arr low high = Ret arr' /\
      within low high arr arr' /\
      arr' ≡ₚ arr.
Proof.
  induction fuel as [|fuel IH]; intros arr low high Hlow Hhigh Hf; simpl;
    destruct (Z.ltb_spec low high) as [Hlh|Hlh]; try lia;
    try (exists arr; conj; [reflexivity | apply within_refl | reflexivity]).
  destruct (partition_safe arr low high Hlow ltac:(lia) ltac:(unfold in_bounds; lia))
    as (arr1 & pi & Hp & Hpi & Hw1 & Hperm1 & _).
  rewrite Hp. simpl.
  assert (length arr1 = length arr) as Hlen1 by apply Hw1.
  destruct (IH arr1 low (pi - 1)) as (arr2 & Hq2 & Hw2 & Hperm2); try lia.
  rewrite Hq2. simpl.
  assert (length arr2 = length arr1) as Hlen2 by apply Hw2.
  destruct (IH arr2 (pi + 1) high) as (arr3 & Hq3 & Hw3 & Hperm3); try lia.
  exists arr3. conj; trivial.
  - apply (within_trans _ _ _ arr1); trivial.
    apply (within_trans _ _ _ arr2).
    + apply (within_mono low (pi - 1)); trivial; lia.
    + apply (within_mono (pi + 1) high); trivial; lia.
  - now rewrite Hperm3, Hperm2.
Qed.

(** X12: [partition] on a range [low..high] inside the array, whatever the
    salaries: it returns a position [pi] of the range that now holds the
    record that was last in the range, the pivot; the array is a
    permutation of the one before and the slots outside the range are
    untouched. When no salary of the range is NaN, every record before
    [pi] in the range has a salary [>=] the pivot's and every record after
    it a salary [<=] the pivot's. *)
Theorem partition_post (arr : list Developer) (low high : Z) :
  0 <= low -> low <= high -> in_bounds arr high ->
  exists arr' pi p,
    partition arr low high = Ret (arr', pi) /\
    low <= pi <= high /\
    lkp arr high = Some p /\ lkp arr' pi = Some p /\
    arr' ≡ₚ arr /\
    (forall k, ~ (low <= k <= high) -> lkp arr' k = lkp arr k) /\
    (seg_all sal_ok arr low high ->
     seg_all (sal_ge (dev_salary p)) arr' low (pi - 1) /\
     seg_all (sal_le (dev_salary p)) arr' (pi + 1) high).
Proof.
  intros Hlow Hlh Hhigh.
  destruct (partition_safe arr low high Hlow Hlh Hhigh)
    as (arr' & pi & Hp & Hpi & Hw & Hperm & Hpivot).
  destruct (lkp_in_bounds arr high Hhigh) as [p Hph].
  exists arr', pi, p. conj; trivial; try lia.
  - congruence.
  - apply Hw.
  - intros Hok.
    destruct (partition_spec arr low high Hlow Hlh Hhigh Hok)
      as (arr2 & pi2 & p2 & Hp2 & _ & _ & Hp2' & Hl & Hr).
    rewrite Hp in Hp2. injection Hp2 as <- <-.
    assert (p2 = p) as -> by congruence. auto.
Qed.

Lemma partition_post_witness :
  exists arr' pi p,
    partition (arr_developers arr_demo) 0 3 = Ret (arr', pi) /\
    0 <= pi <= 3 /\
    lkp (arr_developers arr_demo) 3 = Some p /\ lkp arr' pi = Some p /\
    arr' ≡ₚ arr_developers arr_demo /\
    (forall k, ~ (0 <= k <= 3) -> lkp arr' k = lkp (arr_developers arr_demo) k) /\
    (seg_all sal_ok (arr_developers arr_demo) 0 3 ->
     seg_all (sal_ge (dev_salary p)) arr' 0 (pi - 1) /\
     seg_all (sal_le (dev_salary p)) arr' (pi + 1) 3).
Proof.
  apply (partition_post (arr_developers arr_demo) 0 3); [lia | lia |].
  unfold in_bounds. simpl. lia.
Defined.

Lemma sortDevelopersBySalary_safe (arr : DynamicArray) (out : list event) :
  wf_array arr ->
  exists arr',
    sortDevelopersBySalary arr out =
      Ret (arr', if arr_size arr >? 1 then out ++ [EvSorted] else out) /\
    arr_developers arr' ≡ₚ arr_developers arr /\
    arr_size arr' = arr_size arr /\
    arr_capacity arr' = arr_capacity arr /\
    wf_array arr'.
Proof.
  intros [Hsz Hcap]. unfold sortDevelopersBySalary.
  destruct (Z.gtb_spec (arr_size arr) 1) as [Hgt|Hle].
  - destruct (quickSort_safe (Z.to_nat (arr_size arr)) (arr_developers arr)
                0 (arr_size arr - 1)) as (devs1 & Hq & Hw & Hperm); try lia.
    unfold lift, M_bind, printf, M_ret. rewrite Hq.
    eexists. split; [reflexivity|]. simpl. conj; trivial.
    assert (length devs1 = length (arr_developers arr)) as Hlen by apply Hw.
    split; simpl; trivial. congruence.
  - exists arr. unfold M_ret. conj; trivial. split; trivial.
Qed.

(** X13: [sortDevelopersBySalary] on an array that keeps its invariant
    always returns, whatever the salaries, NaN included: the records of the
    result are a permutation of the records before, size and capacity are
    unchanged, the invariant holds again, and the message is printed
    exactly when the array has more than one record. *)
Theorem sortDevelopersBySalary_permutation (arr : DynamicArray) (out : list event) :
  wf_array arr ->
  exists arr',
    sortDevelopersBySalary arr out =
      Ret (arr', if arr_size arr >? 1 then out ++ [EvSorted] else out) /\
    arr_developers arr' ≡ₚ arr_developers arr /\
    arr_size arr' = arr_size arr /\
    arr_capacity arr' = arr_capacity arr /\
    wf_array arr'.
Proof. apply sortDevelopersBySalary_safe. Qed.

Lemma sortDevelopersBySalary_permutation_witness :
  exists arr',
    sortDevelopersBySalary arr_nan [] =
      Ret (arr', if arr_size arr_nan >? 1 then [] ++ [EvSorted] else []) /\
    arr_developers arr' ≡ₚ arr_developers arr_nan /\
    arr_size arr' = arr_size arr_nan /\
    arr_capacity arr' = arr_capacity arr_nan /\
    wf_array arr'.
Proof.
  apply (sortDevelopersBySalary_permutation arr_nan []). split; simpl; lia.
Defined.

(** ** The comparator and the statistics *)

Lemma float_lt_not_nan (a b : float) :
  float_lt a b = true -> is_nan a = false /\ is_nan b = false.
Proof. unfold float_lt, SFltb, SFcompare. destruct a, b; simpl; intros; split; congruence. Qed.

Lemma float_lt_asym (a b : float) : float_lt a b = true -> float_lt b a = false.
Proof.
  intros H. destruct (float_lt_not_nan a b H) as [Ha Hb].
  rewrite float_lt_ge in * by trivial.
  destruct (float_ge a b) eqn:Hab; [discriminate|].
  now rewrite (float_ge_total a b Ha Hb Hab).
Qed.

Lemma compareBySalary_le (a b : Developer) :
  is_nan (dev_salary a) = false -> is_nan (dev_salary b) = false ->
  (compareBySalary a b <= 0 <-> float_ge (dev_salary a) (dev_salary b) = true).
Proof.
  intros Ha Hb. unfold compareBySalary, float_gt.
  change (SFltb (dev_salary b) (dev_salary a))
    with (float_lt (dev_salary b) (dev_salary a)).
  rewrite !float_lt_ge by trivial.
  destruct (float_ge (dev_salary b) (dev_salary a)) eqn:Hba,
           (float_ge (dev_salary a) (dev_salary b)) eqn:Hab; simpl;
    try (split; [reflexivity|lia]); try (split; [lia|discriminate]).
  rewrite (float_ge_total _ _ Hb Ha Hba) in Hab. discriminate.
Qed.

(** X14: [compareBySalary] is antisymmetric on all records:
    swapping the arguments negates the result, which is -1, 0 or 1. On
    records whose salaries are not NaN it is [<= 0] exactly when the first
    salary is [>=] the second, and it is transitive. A record whose salary
    is NaN compares equal, 0, to every record. *)
Theorem compareBySalary_order :
  (forall a b, compareBySalary b a = - compareBySalary a b /\
               -1 <= compareBySalary a b <= 1) /\
  (forall a b, is_nan (dev_salary a) = false -> is_nan (dev_salary b) = false ->
     (compareBySalary a b <= 0 <-> float_ge (dev_salary a) (dev_salary b) = true)) /\
  (forall a b c,
     is_nan (dev_salary a) = false -> is_nan (dev_salary b) = false ->
     is_nan (dev_salary c) = false ->
     compareBySalary a b <= 0 -> compareBySalary b c <= 0 -> compareBySalary a c <= 0) /\
  (forall a b, is_nan (dev_salary a) = true ->
     compareBySalary a b = 0 /\ compareBySalary b a = 0).
Proof.
  split; [|split; [|split]].
  - intros a b. unfold compareBySalary, float_gt.
    change (SFltb (dev_salary b) (dev_salary a))
      with (float_lt (dev_salary b) (dev_salary a)).
    change (SFltb (dev_salary a) (dev_salary b))
      with (float_lt (dev_salary a) (dev_salary b)).
    destruct (float_lt (dev_salary b) (dev_salary a)) eqn:Hba.
    + rewrite (float_lt_asym _ _ Hba). lia.
    + destruct (float_lt (dev_salary a) (dev_salary b)); lia.
  - apply compareBySalary_le.
  - intros a b c Ha Hb Hc Hab Hbc.
    apply compareBySalary_le in Hab; trivial. apply compareBySalary_le in Hbc; trivial.
    apply compareBySalary_le; trivial. exact (float_ge_trans _ _ _ Hab Hbc).
  - intros a b Ha. unfold compareBySalary, float_gt, float_lt, SFltb, SFcompare.
    destruct (dev_salary a); try discriminate. destruct (dev_salary b); auto.
Qed.

Lemma compareBySalary_order_witness :
  (compareBySalary dev_ok dev_bad <= 0 <->
   float_ge (dev_salary dev_ok) (dev_salary dev_bad) = true) /\
  compareBySalary dev_nan dev_ok = 0.
Proof.
  split.
  - apply (proj1 (proj2 compareBySalary_order) dev_ok dev_bad); reflexivity.
  - apply (proj2 (proj2 (proj2 compareBySalary_order)) dev_nan dev_ok). reflexivity.
Defined.

Lemma sortDevelopersBySalary_sorted_seg (arr : DynamicArray) (out : list event) :
  wf_array arr -> no_nan (arr_developers arr) ->
  exists arr1 out1,
    sortDevelopersBySalary arr out = Ret (arr1, out1) /\
    sorted_seg (arr_developers arr1) 0 (arr_size arr - 1) /\
    length (arr_developers arr1) = length (arr_developers arr).
Proof.
  intros [Hsz Hcap] Hnan. unfold sortDevelopersBySalary.
  destruct (Z.gtb_spec (arr_size arr) 1) as [Hgt|Hle].
  - destruct (quickSort_spec (Z.to_nat (arr_size arr)) (arr_developers arr)
                0 (arr_size arr - 1)) as (devs1 & Hq & Hw & Hs); try lia.
    { now apply no_nan_seg. }
    unfold lift, M_bind, printf, M_ret. rewrite Hq.
    eexists _, _. split; [reflexivity|]. simpl. split; [exact Hs | apply Hw].
  - unfold M_ret. eexists _, _. split; [reflexivity|]. split; trivial.
    intros a b da db Ha Hab Hb. lia.
Qed.

(** X15: the hand-written sort and the comparator agree. After
    [sortDevelopersBySalary] on an array without NaN salaries, for any two
    slots [i < j] of the result [compareBySalary] of the record in slot
    [i] and the record in slot [j] is [<= 0]: the result is in the order
    [qsort] with [compareBySalary] asks for. *)
Theorem sortDevelopersBySalary_compareBySalary (arr : DynamicArray) (out : list event) :
  wf_array arr -> no_nan (arr_developers arr) ->
  exists arr1 out1,
    sortDevelopersBySalary arr out = Ret (arr1, out1) /\
    forall (i j : nat) (a b : Developer),
      (i < j)%nat ->
      arr_developers arr1 !! i = Some a -> arr_developers arr1 !! j = Some b ->
      compareBySalary a b <= 0.
Proof.
  intros Hwf Hnan.
  destruct (sortDevelopersBySalary_sorted_seg arr out Hwf Hnan)
    as (arr1 & out1 & Hrun & Hs & Hlen).
  destruct (sortDevelopersBySalary_safe arr out Hwf) as (arr1' & Hrun' & Hperm & _).
  rewrite Hrun in Hrun'. injection Hrun' as <- _.
  exists arr1, out1. split; trivial.
  intros i j a b Hij Ha Hb.
  assert (forall d, d ∈ arr_developers arr1 -> is_nan (dev_salary d) = false) as Hnan1.
  { intros d Hd. apply Hnan. now rewrite <- Hperm. }
  apply compareBySalary_le.
  - apply Hnan1. now apply list_elem_of_lookup_2 in Ha.
  - apply Hnan1. now apply list_elem_of_lookup_2 in Hb.
  - pose proof (lookup_lt_Some _ _ _ Hb) as Hlt. destruct Hwf as [Hsz _].
    apply (Hs (Z.of_nat i) (Z.of_nat j)); try lia; unfold lkp.
    + destruct (Z.leb_spec 0 (Z.of_nat i)); [|lia]. now rewrite Nat2Z.id.
    + destruct (Z.leb_spec 0 (Z.of_nat j)); [|lia]. now rewrite Nat2Z.id.
Qed.

Lemma sortDevelopersBySalary_compareBySalary_witness :
  exists arr1 out1,
    sortDevelopersBySalary arr_demo [] = Ret (arr1, out1) /\
    forall (i j : nat) (a b : Developer),
      (i < j)%nat ->
      arr_developers arr1 !! i = Some a -> arr_developers arr1 !! j = Some b ->
      compareBySalary a b <= 0.
Proof.
  apply (sortDevelopersBySalary_compareBySalary arr_demo []).
  - split; simpl; lia.
  - intros d Hd. simpl in Hd.
    repeat (apply elem_of_cons in Hd as [->|Hd]; [reflexivity|]).
    inversion Hd.
Defined.

Lemma calculateSalaryStats_loop_fold (devs : list Developer) (n : nat) :
  forall (i : Z) (total smin smax : float),
    Z.of_nat n = Z.of_nat (length devs) - i -> 0 <= i ->
    calculateSalaryStats_loop n devs (Z.of_nat (length devs)) i total smin smax =
    Ret (fold_left stats_step (drop (Z.to_nat i) devs) (total, smin, smax)).
Proof.
  induction n as [|n IH]; intros i total smin smax Hn Hi; simpl;
    destruct (Z.ltb_spec i (Z.of_nat (length devs))) as [Hlt|Hge]; try lia.
  - rewrite drop_ge by lia. reflexivity.
  - assert (in_bounds devs i) as Hb by (unfold in_bounds; lia).
    destruct (lkp_in_bounds devs i Hb) as [d Hd].
    rewrite rd_lkp, Hd. simpl. rewrite IH by lia.
    unfold lkp in Hd. destruct (Z.leb_spec 0 i); [|lia].
    rewrite (drop_S devs d (Z.to_nat i) Hd). simpl.
    replace (Z.to_nat (i + 1)) with (S (Z.to_nat i)) by lia. reflexivity.
Qed.

Lemma stats_fold_min_max (l : list Developer) :
  forall (total smin smax : float),
    is_nan smin = false -> is_nan smax = false ->
    (forall d, d ∈ l -> is_nan (dev_salary d) = false) ->
    let '(total', smin', smax') := fold_left stats_step l (total, smin, smax) in
    (smin' = smin \/ exists d, d ∈ l /\ smin' = dev_salary d) /\
    (smax' = smax \/ exists d, d ∈ l /\ smax' = dev_salary d) /\
    float_ge smin smin' = true /\ float_ge smax' smax = true /\
    (forall d, d ∈ l ->
       float_ge (dev_salary d) smin' = true /\ float_ge smax' (dev_salary d) = true).
Proof.
  induction l as [|x l IH]; intros total smin smax Hmin Hmax Hnan; simpl.
  - conj; auto using float_ge_refl. intros d Hd. inversion Hd.
  - assert (is_nan (dev_salary x) = false) as Hx by (apply Hnan, list_elem_of_here).
    set (smin1 := if float_lt (dev_salary x) smin then dev_salary x else smin).
    set (smax1 := if float_gt (dev_salary x) smax then dev_salary x else smax).
    assert (is_nan smin1 = false) as Hmin1 by (unfold smin1; destruct (float_lt _ _); trivial).
    assert (is_nan smax1 = false) as Hmax1 by (unfold smax1; destruct (float_gt _ _); trivial).
    assert ((smin1 = smin \/ smin1 = dev_salary x) /\
            float_ge smin smin1 = true /\ float_ge (dev_salary x) smin1 = true) as Hs1.
    { unfold smin1. rewrite float_lt_ge by trivial.
      destruct (float_ge (dev_salary x) smin) eqn:Hc; simpl.
      - auto using float_ge_refl.
      - split; [auto|]. split; [now apply float_ge_total | now apply float_ge_refl]. }
    assert ((smax1 = smax \/ smax1 = dev_salary x) /\
            float_ge smax1 smax = true /\ float_ge smax1 (dev_salary x) = true) as Hs2.
    { unfold smax1, float_gt.
      change (SFltb smax (dev_salary x)) with (float_lt smax (dev_salary x)).
      rewrite float_lt_ge by trivial.
      destruct (float_ge smax (dev_salary x)) eqn:Hc; simpl.
      - auto using float_ge_refl.
      - split; [auto|]. split; [now apply float_ge_total | now apply float_ge_refl]. }
    specialize (IH (float_add total (dev_salary x)) smin1 smax1 Hmin1 Hmax1).
    destruct (fold_left stats_step l (float_add total (dev_salary x), smin1, smax1))
      as [[total' smin'] smax'].
    destruct IH as (Ha & Hb & Hc & Hd & He).
    { intros d Hd. apply Hnan. now apply list_elem_of_further. }
    destruct Hs1 as (Hs1a & Hs1b & Hs1c). destruct Hs2 as (Hs2a & Hs2b & Hs2c).
    split; [|split; [|split; [|split]]].
    + destruct Ha as [->|(d & Hd1 & ->)].
      * destruct Hs1a as [->| ->]; [now left|right].
        exists x. split; [apply list_elem_of_here | reflexivity].
      * right. exists d. split; [now apply list_elem_of_further | reflexivity].
    + destruct Hb as [->|(d & Hd1 & ->)].
      * destruct Hs2a as [->| ->]; [now left|right].
        exists x. split; [apply list_elem_of_here | reflexivity].
      * right. exists d. split; [now apply list_elem_of_further | reflexivity].
    + exact (float_ge_trans _ _ _ Hs1b Hc).
    + exact (float_ge_trans _ _ _ Hd Hs2b).
    + intros d Hd1. apply elem_of_cons in Hd1 as [->|Hd1]; [|now apply He].
      split; [exact (float_ge_trans _ _ _ Hs1c Hc) | exact (float_ge_trans _ _ _ Hd Hs2c)].
Qed.

Lemma calculateSalaryStats_run (arr : DynamicArray) :
  wf_array arr -> 0 < arr_size arr ->
  exists d0 rest total smin smax,
    arr_developers arr = d0 :: rest /\
    fold_left stats_step (arr_developers arr) (float_zero, dev_salary d0, dev_salary d0)
      = (total, smin, smax) /\
    calculateSalaryStats arr =
      Ret {| st_average := float_div total (float_of_int (arr_size arr));
             st_min := smin; st_max := smax; st_count := arr_size arr |}.
Proof.
  intros [Hsz Hcap] Hpos. unfold calculateSalaryStats.
  destruct (Z.eqb_spec (arr_size arr) 0); [lia|].
  destruct (arr_developers arr) as [|d0 rest] eqn:Hdevs; [simpl in Hsz; lia|].
  rewrite rd_lkp.
  replace (lkp (d0 :: rest) 0) with (Some d0) by reflexivity. simpl res_bind.
  rewrite Hsz, Nat2Z.id.
  rewrite (calculateSalaryStats_loop_fold (d0 :: rest)) by lia.
  change (drop (Z.to_nat 0) (d0 :: rest)) with (d0 :: rest).
  destruct (fold_left stats_step (d0 :: rest) (float_zero, dev_salary d0, dev_salary d0))
    as [[total smin] smax] eqn:Hfold.
  exists d0, rest, total, smin, smax. split; [reflexivity|]. split; [exact Hfold|].
  reflexivity.
Qed.

(** X16: [calculateSalaryStats] on an array that keeps its invariant. For
    the empty array it returns the statistics that are zero throughout.
    Otherwise it returns statistics whose count is the size; and when no
    salary is NaN, the minimum and the maximum are salaries of records of
    the array, the minimum is [<=] every salary and the maximum is [>=]
    every salary. *)
Theorem calculateSalaryStats_min_max (arr : DynamicArray) :
  wf_array arr ->
  (arr_size arr = 0 ->
   calculateSalaryStats arr =
   Ret {| st_average := float_zero; st_min := float_zero;
          st_max := float_zero; st_count := 0 |}) /\
  (0 < arr_size arr ->
   exists st,
     calculateSalaryStats arr = Ret st /\
     st_count st = arr_size arr /\
     (no_nan (arr_developers arr) ->
      (exists d, d ∈ arr_developers arr /\ st_min st = dev_salary d) /\
      (exists d, d ∈ arr_developers arr /\ st_max st = dev_salary d) /\
      forall d, d ∈ arr_developers arr ->
        float_ge (dev_salary d) (st_min st) = true /\
        float_ge (st_max st) (dev_salary d) = true)).
Proof.
  intros Hwf. split.
  - intros Hz. unfold calculateSalaryStats. now rewrite Hz.
  - intros Hpos.
    destruct (calculateSalaryStats_run arr Hwf Hpos)
      as (d0 & rest & total & smin & smax & Hdevs & Hfold & Hrun).
    eexists. split; [exact Hrun|]. split; [reflexivity|]. simpl.
    intros Hnan.
    assert (d0 ∈ arr_developers arr) as Hd0 by (rewrite Hdevs; apply list_elem_of_here).
    pose proof (stats_fold_min_max (arr_developers arr) float_zero
                  (dev_salary d0) (dev_salary d0) (Hnan d0 Hd0) (Hnan d0 Hd0) Hnan) as H.
    rewrite Hfold in H. destruct H as (Ha & Hb & _ & _ & He).
    split; [|split; trivial].
    + destruct Ha as [->|Ha]; eauto.
    + destruct Hb as [->|Hb]; eauto.
Qed.

Lemma calculateSalaryStats_min_max_witness :
  exists st,
    calculateSalaryStats arr_demo = Ret st /\
    st_count st = arr_size arr_demo /\
    (no_nan (arr_developers arr_demo) ->
     (exists d, d ∈ arr_developers arr_demo /\ st_min st = dev_salary d) /\
     (exists d, d ∈ arr_developers arr_demo /\ st_max st = dev_salary d) /\
     forall d, d ∈ arr_developers arr_demo ->
       float_ge (dev_salary d) (st_min st) = true /\
       float_ge (st_max st) (dev_salary d) = true).
Proof.
  apply (proj2 (calculateSalaryStats_min_max arr_demo ltac:(split; simpl; lia))).
  simpl. lia.
Defined.

Lemma stats_fold_nan_first (l : list Developer) (total : float) :
  exists total',
    fold_left stats_step l (total, S754_nan, S754_nan) = (total', S754_nan, S754_nan).
Proof.
  revert total. induction l as [|x l IH]; intros total; simpl.
  - eauto.
  - replace (float_lt (dev_salary x) S754_nan) with false
      by (unfold float_lt, SFltb, SFcompare; destruct (dev_salary x); reflexivity).
    replace (float_gt (dev_salary x) S754_nan) with false by reflexivity.
    apply IH.
Qed.

Lemma stats_fold_nan_total (l : list Developer) :
  forall (total smin smax : float),
    total = S754_nan \/ (exists d, d ∈ l /\ dev_salary d = S754_nan) ->
    exists smin' smax',
      fold_left stats_step l (total, smin, smax) = (S754_nan, smin', smax').
Proof.
  induction l as [|x l IH]; intros total smin smax H; simpl.
  - destruct H as [->|(d & Hd & _)]; [eauto | inversion Hd].
  - apply IH. destruct H as [->|(d & Hd & Hnan)].
    + left. reflexivity.
    + apply elem_of_cons in Hd as [->|Hd]; [left|right; eauto].
      rewrite Hnan. unfold float_add, SFadd. destruct total; reflexivity.
Qed.

(** X17: NaN in the statistics. On a non-empty array that keeps its
    invariant, when the salary of the first record is NaN the minimum and
    the maximum [calculateSalaryStats] returns are NaN, whatever the other
    salaries are; and when any record has a NaN salary the average is
    NaN. *)
Theorem calculateSalaryStats_nan (arr : DynamicArray) :
  wf_array arr -> 0 < arr_size arr ->
  exists st,
    calculateSalaryStats arr = Ret st /\
    ((exists d0, arr_developers arr !! 0%nat = Some d0 /\ dev_salary d0 = S754_nan) ->
     st_min st = S754_nan /\ st_max st = S754_nan) /\
    ((exists d, d ∈ arr_developers arr /\ dev_salary d = S754_nan) ->
     st_average st = S754_nan).
Proof.
  intros Hwf Hpos.
  destruct (calculateSalaryStats_run arr Hwf Hpos)
    as (d0 & rest & total & smin & smax & Hdevs & Hfold & Hrun).
  eexists. split; [exact Hrun|]. simpl. split.
  - intros (d & Hd & Hnan). rewrite Hdevs in Hd. injection Hd as ->.
    rewrite Hnan in Hfold.
    destruct (stats_fold_nan_first (arr_developers arr) float_zero) as [t' Ht].
    pose proof (eq_trans (eq_sym Ht) Hfold) as E. injection E as _ <- <-. auto.
  - intros Hex.
    destruct (stats_fold_nan_total (arr_developers arr) float_zero
                (dev_salary d0) (dev_salary d0) (or_intror Hex)) as (m1 & m2 & Ht).
    pose proof (eq_trans (eq_sym Ht) Hfold) as E. injection E as <- _ _. reflexivity.
Qed.

Lemma calculateSalaryStats_nan_witness :
  exists st,
    calculateSalaryStats arr_nan = Ret st /\
    ((exists d0, arr_developers arr_nan !! 0%nat = Some d0 /\ dev_salary d0 = S754_nan) ->
     st_min st = S754_nan /\ st_max st = S754_nan) /\
    ((exists d, d ∈ arr_developers arr_nan /\ dev_salary d = S754_nan) ->
     st_average st = S754_nan).
Proof.
  apply (calculateSalaryStats_nan arr_nan); [split; simpl; lia | simpl; lia].
Defined.

(** X18: after [sortDevelopersBySalary] on a non-empty array without NaN
    salaries, slot 0 holds a record of the array whose salary is [>=]
    every salary of the array, and the last slot one whose salary is [<=]
    every salary of the array. *)
Theorem sortDevelopersBySalary_extremes (arr : DynamicArray) (out : list event) :
  wf_array arr -> no_nan (arr_developers arr) -> 0 < arr_size arr ->
  exists arr1 out1 top bottom,
    sortDevelopersBySalary arr out = Ret (arr1, out1) /\
    arr_developers arr1 !! 0%nat = Some top /\
    last (arr_developers arr1) = Some bottom /\
    top ∈ arr_developers arr /\ bottom ∈ arr_developers arr /\
    forall d, d ∈ arr_developers arr ->
      float_ge (dev_salary top) (dev_salary d) = true /\
      float_ge (dev_salary d) (dev_salary bottom) = true.
Proof.
  intros Hwf Hnan Hpos.
  destruct (sortDevelopersBySalary_sorted_seg arr out Hwf Hnan)
    as (arr1 & out1 & Hrun & Hs & Hlen).
  destruct (sortDevelopersBySalary_safe arr out Hwf) as (arr1' & Hrun' & Hperm & _).
  rewrite Hrun in Hrun'. injection Hrun' as <- _.
  destruct Hwf as [Hsz _].
  set (devs1 := arr_developers arr1) in *.
  assert (0 < length devs1)%nat as Hne by lia.
  destruct (lookup_lt_is_Some_2 devs1 0 Hne) as [top Htop].
  destruct (lookup_lt_is_Some_2 devs1 (pred (length devs1)) ltac:(lia)) as [bottom Hbot].
  exists arr1, out1, top, bottom. fold devs1.
  split; trivial. split; trivial. split; [now rewrite last_lookup|].
  split; [rewrite <- Hperm; now apply list_elem_of_lookup_2 in Htop|].
  split; [rewrite <- Hperm; now apply list_elem_of_lookup_2 in Hbot|].
  intros d Hd. rewrite <- Hperm in Hd. fold devs1 in Hd.
  apply list_elem_of_lookup_1 in Hd as [k Hk].
  pose proof (lookup_lt_Some _ _ _ Hk) as Hklt.
  assert (forall n x, devs1 !! n = Some x -> lkp devs1 (Z.of_nat n) = Some x) as Hlkp.
  { intros n x Hx. unfold lkp. destruct (Z.leb_spec 0 (Z.of_nat n)); [|lia].
    now rewrite Nat2Z.id. }
  assert (is_nan (dev_salary d) = false) as Hdn.
  { apply Hnan. rewrite <- Hperm. now apply list_elem_of_lookup_2 in Hk. }
  split.
  - destruct k as [|k].
    + rewrite Htop in Hk. injection Hk as ->. now apply float_ge_refl.
    + apply (Hs 0 (Z.of_nat (S k))); try lia; auto.
  - destruct (Nat.eq_dec k (pred (length devs1))) as [->|Hne'].
    + rewrite Hbot in Hk. injection Hk as ->. now apply float_ge_refl.
    + apply (Hs (Z.of_nat k) (Z.of_nat (pred (length devs1)))); try lia; auto.
Qed.

Lemma sortDevelopersBySalary_extremes_witness :
  exists arr1 out1 top bottom,
    sortDevelopersBySalary arr_demo [] = Ret (arr1, out1) /\
    arr_developers arr1 !! 0%nat = Some top /\
    last (arr_developers arr1) = Some bottom /\
    top ∈ arr_developers arr_demo /\ bottom ∈ arr_developers arr_demo /\
    forall d, d ∈ arr_developers arr_demo ->
      float_ge (dev_salary top) (dev_salary d) = true /\
      float_ge (dev_salary d) (dev_salary bottom) = true.
Proof.
  apply (sortDevelopersBySalary_extremes arr_demo []).
  - split; simpl; lia.
  - intros d Hd. simpl in Hd.
    repeat (apply elem_of_cons in Hd as [->|Hd]; [reflexivity|]).
    inversion Hd.
  - simpl. lia.
Defined.

(** ** The skill strings *)


















Arguments is_delim : simpl never.

Lemma is_delim_comma (c : ascii) : is_delim "," c = Ascii.eqb ","%char c.
Proof. unfold is_delim. simpl. apply orb_false_r. Qed.

Lemma token_end_comma (u r : list ascii) :
  (forall c, c ∈ u -> c <> ","%char) ->
  token_end "," u = (u, []) /\
  token_end "," (u ++ ","%char :: r) = (u, r).
Proof.
  induction u as [|a u IH]; intros Hu; simpl.
  - split; trivial.
  - rewrite is_delim_comma.
    destruct (Ascii.eqb_spec ","%char a) as [<-|Hne].
    { exfalso. apply (Hu ","%char); [apply list_elem_of_here | reflexivity]. }
    destruct IH as [IH1 IH2].
    { intros c Hc. apply Hu. now apply list_elem_of_further. }
    now rewrite IH1, IH2.
Qed.

Lemma skip_spaces_repeat (sp : nat) (t : list ascii) :
  head t <> Some " "%char -> skip_spaces (repeat " "%char sp ++ t) = t.
Proof.
  intros Hh. induction sp as [|sp IH]; simpl; trivial.
  destruct t as [|c t]; simpl; trivial.
  destruct (Ascii.eqb_spec c " ") as [->|]; trivial. now contradiction Hh.
Qed.

Lemma rtrim_id (t : list ascii) :
  last t <> Some " "%char -> rtrim t (length t) = t.
Proof.
  intros Hl. destruct (length t) as [|len] eqn:Hlen; simpl.
  - destruct t; [reflexivity|discriminate].
  - rewrite last_lookup, Hlen in Hl. simpl in Hl.
    destruct (t !! len) as [c|] eqn:Hc.
    + destruct (Ascii.eqb_spec c " ") as [->|]; [now contradiction Hl|].
      apply take_ge. lia.
    + apply take_ge. lia.
Qed.

Lemma strtok_join (sp : nat) (t : list ascii) (rest : list (list ascii)) :
  t <> [] -> (forall c, c ∈ t -> c <> ","%char) ->
  strtok "," (repeat " "%char sp ++ join_tokens (t :: rest)) =
  Some (repeat " "%char sp ++ t,
        match rest with [] => [] | _ :: _ => " "%char :: join_tokens rest end).
Proof.
  intros Hne Hcomma.
  assert (forall c, c ∈ repeat " "%char sp ++ t -> c <> ","%char) as Hu.
  { intros c Hc. apply elem_of_app in Hc as [Hc|Hc]; [|now apply Hcomma].
    apply list_elem_of_In, repeat_spec in Hc. subst c. discriminate. }
  assert (exists a u, repeat " "%char sp ++ t = a :: u) as (a & u & Hau).
  { destruct sp; simpl; [destruct t; [contradiction|]|]; eauto. }
  assert (is_delim "," a = false) as Ha.
  { rewrite is_delim_comma. destruct (Ascii.eqb_spec ","%char a) as [<-|]; trivial.
    exfalso. apply (Hu ","%char); [|reflexivity]. rewrite Hau. apply list_elem_of_here. }
  destruct (token_end_comma (repeat " "%char sp ++ t)
              (" "%char :: join_tokens rest) Hu) as [H1 H2].
  unfold strtok. simpl join_tokens. destruct rest as [|t' rest].
  - rewrite Hau in *. simpl skip_delims. rewrite Ha. now rewrite H1.
  - rewrite app_assoc. rewrite Hau in *. simpl skip_delims. rewrite Ha.
    simpl app in H2. now rewrite H2.
Qed.

Lemma processSkillString_loop_join (l : list (list ascii)) :
  (forall t, t ∈ l ->
     t <> [] /\ (forall c, c ∈ t -> c <> ","%char) /\
     head t <> Some " "%char /\ last t <> Some " "%char /\ (length t < 50)%nat) ->
  l <> [] ->
  forall (n sp : nat) (result : list string) (count : Z),
    Z.of_nat n + count = 10 ->
    processSkillString_loop n (strtok "," (repeat " "%char sp ++ join_tokens l))
      result count =
    Ret (result ++ map string_of_list_ascii (take n l),
         count + Z.of_nat (min n (length l))).
Proof.
  induction l as [|t rest IH]; intros Hclean Hne n sp result count Hn; [contradiction|].
  destruct (Hclean t (list_elem_of_here _ _)) as (Ht & Hcomma & Hhead & Hlast & Hlen).
  rewrite (strtok_join sp t rest Ht Hcomma).
  destruct n as [|n]; simpl processSkillString_loop.
  - destruct (Z.ltb_spec count 10); [lia|]. simpl. rewrite app_nil_r. do 2 f_equal. lia.
  - destruct (Z.ltb_spec count 10); [|lia].
    rewrite (skip_spaces_repeat sp t Hhead), (rtrim_id t Hlast).
    destruct (Z.ltb_spec (Z.of_nat (length t)) 50); [|lia].
    destruct rest as [|t' rest].
    + simpl. rewrite take_nil, Nat.min_0_r.
      destruct n; simpl; f_equal; f_equal; lia.
    + change (" "%char :: join_tokens (t' :: rest))
        with (repeat " "%char 1 ++ join_tokens (t' :: rest)).
      rewrite IH; try lia; try discriminate.
      * rewrite <- app_assoc. simpl. do 2 f_equal. lia.
      * intros x Hx. apply Hclean. now apply list_elem_of_further.
Qed.

Lemma list_ascii_of_string_app (a b : string) :
  list_ascii_of_string (String.append a b) =
  list_ascii_of_string a ++ list_ascii_of_string b.
Proof. induction a as [|c a IH]; simpl; [reflexivity | now rewrite IH]. Qed.

Lemma list_ascii_of_concat (ss : list string) :
  list_ascii_of_string (String.concat ", " ss) = join_tokens (map list_ascii_of_string ss).
Proof.
  induction ss as [|s ss IH]; [reflexivity|].
  destruct ss as [|s' ss]; [reflexivity|].
  change (String.concat ", " (s :: s' :: ss))
    with (String.append s (String.append ", " (String.concat ", " (s' :: ss)))).
  rewrite !list_ascii_of_string_app, IH. reflexivity.
Qed.

Lemma cstr_id (s : string) :
  (forall c, c ∈ list_ascii_of_string s -> c <> NUL) -> cstr s = s.
Proof.
  induction s as [|a s IH]; simpl; intros H; trivial.
  destruct (Ascii.eqb_spec a NUL) as [->|Hne].
  - exfalso. apply (H NUL); [apply list_elem_of_here | reflexivity].
  - f_equal. apply IH. intros c Hc. apply H. now apply list_elem_of_further.
Qed.

Lemma join_tokens_chars (l : list (list ascii)) (c : ascii) :
  c ∈ join_tokens l -> c = ","%char \/ c = " "%char \/ exists t, t ∈ l /\ c ∈ t.
Proof.
  induction l as [|t rest IH]; simpl; intros Hc; [inversion Hc|].
  destruct rest as [|t' rest].
  - right. right. exists t. split; [apply list_elem_of_here | trivial].
  - apply elem_of_app in Hc as [Hc|Hc].
    { right. right. exists t. split; [apply list_elem_of_here | trivial]. }
    apply elem_of_cons in Hc as [->|Hc]; [now left|].
    apply elem_of_cons in Hc as [->|Hc]; [now right; left|].
    destruct (IH Hc) as [->|[->|(x & Hx & Hcx)]]; auto.
    right. right. exists x. split; [now apply list_elem_of_further | trivial].
Qed.

(** X20: [processSkillString] gives back the skills a string was made of.
    For skills that are non-empty, contain no comma and no NUL, have no
    space in front or at the end and are shorter than 50 characters, the
    string that joins them with a comma and a space is split into exactly
    these skills, in order; of more than 10 skills only the first 10 are
    written, and the count is the number written. *)
Theorem processSkillString_concat (ss : list string) :
  (forall s, s ∈ ss -> trimmed_skill s /\ s <> EmptyString) ->
  processSkillString (String.concat ", " ss) =
  Ret (take 10 ss, Z.of_nat (min 10 (length ss))).
Proof.
  intros Hclean. unfold processSkillString.
  assert (forall t, t ∈ map list_ascii_of_string ss ->
            t <> [] /\ (forall c, c ∈ t -> c <> ","%char /\ c <> NUL) /\
            head t <> Some " "%char /\ last t <> Some " "%char /\ (length t < 50)%nat)
    as Hl.
  { intros t Ht. apply list_elem_of_fmap in Ht as (s & -> & Hs).
    destruct (Hclean s Hs) as ((H1 & H2 & H3 & H4) & Hne). split; [|auto].
    intros He. apply Hne. rewrite <- (string_of_list_ascii_of_string s), He. reflexivity. }
  rewrite cstr_id.
  2:{ intros c Hc. rewrite list_ascii_of_concat in Hc.
      apply join_tokens_chars in Hc as [->|[->|(t & Ht & Hct)]]; try discriminate.
      now apply (Hl t Ht). }
  rewrite list_ascii_of_concat.
  destruct ss as [|s ss]; [reflexivity|].
  change (join_tokens (map list_ascii_of_string (s :: ss)))
    with (repeat " "%char 0 ++ join_tokens (map list_ascii_of_string (s :: ss))).
  rewrite processSkillString_loop_join; try discriminate; try lia.
  - rewrite firstn_map, map_map, length_map.
    rewrite (map_ext (fun x => string_of_list_ascii (list_ascii_of_string x)) id)
      by (intros x; apply string_of_list_ascii_of_string).
    rewrite map_id. reflexivity.
  - intros t Ht. destruct (Hl t Ht) as (H1 & H2 & H3 & H4 & H5).
    split; [trivial|]. split; [|auto]. intros c Hc. now apply H2.
Qed.

Lemma processSkillString_concat_witness :
  processSkillString (String.concat ", " ["C"; "Node.js"; "SQL Server"]) =
  Ret (take 10 ["C"; "Node.js"; "SQL Server"],
       Z.of_nat (min 10 (length ["C"; "Node.js"; "SQL Server"]))).
Proof.
  apply (processSkillString_concat ["C"; "Node.js"; "SQL Server"]).
  intros s Hs.
  repeat (apply elem_of_cons in Hs as [->|Hs];
          [split; [|discriminate]; unfold trimmed_skill; simpl;
           split; [|split; [discriminate|split; [discriminate|lia]]];
           intros c Hc;
           repeat (apply elem_of_cons in Hc as [->|Hc]; [split; discriminate|]);
           inversion Hc|]).
  inversion Hs.
Defined.

(** ** Snapshot files *)

(** X21: saving and loading give the array back. When the file can be
    opened for writing, [saveDevelopersToFile] of an array that keeps its
    invariant writes the file and leaves every other file as it was, and
    [loadDevelopersFromFile] of that file returns an array with the same
    size and the same records in the same slots; its capacity is its size,
    so the loaded array is full, and it keeps the invariant. *)
Theorem save_then_load (fs : FS) (arr : DynamicArray) (filename : string) :
  wf_array arr -> fs_writable fs filename = true ->
  exists fs' arr',
    saveDevelopersToFile fs arr filename = Ret (fs', [IoSaved filename]) /\
    loadDevelopersFromFile fs' filename = Ret (Some arr', [IoLoaded filename]) /\
    arr_developers arr' = arr_developers arr /\
    arr_size arr' = arr_size arr /\
    arr_capacity arr' = arr_size arr /\
    wf_array arr' /\
    (forall other, other <> filename -> fs_files fs' !! other = fs_files fs !! other).
Proof.
  intros [Hsz Hcap] Hw. unfold saveDevelopersToFile, loadDevelopersFromFile.
  rewrite Hw.
  replace ((0 <=? arr_size arr) && (arr_size arr <=? Z.of_nat (length (arr_developers arr))))
    with true by (symmetry; apply andb_true_iff; lia).
  eexists _, _. split; [reflexivity|]. simpl.
  rewrite lookup_insert_eq. simpl.
  destruct (Z.ltb_spec (arr_size arr) 0); [lia|].
  split; [reflexivity|]. simpl.
  rewrite take_take, Nat.min_id, take_ge by lia.
  conj; trivial.
  - split; simpl; lia.
  - intros other Hne. now apply lookup_insert_ne.
Qed.

Lemma save_then_load_witness :
  exists fs' arr',
    saveDevelopersToFile {| fs_files := ∅; fs_writable := fun _ => true |}
      arr_demo "developers.dat" = Ret (fs', [IoSaved "developers.dat"]) /\
    loadDevelopersFromFile fs' "developers.dat" =
      Ret (Some arr', [IoLoaded "developers.dat"]) /\
    arr_developers arr' = arr_developers arr_demo /\
    arr_size arr' = arr_size arr_demo /\
    arr_capacity arr' = arr_size arr_demo /\
    wf_array arr' /\
    (forall other, other <> "developers.dat" ->
       fs_files fs' !! other =
       fs_files {| fs_files := ∅; fs_writable := fun _ => true |} !! other).
Proof.
  apply (save_then_load {| fs_files := ∅; fs_writable := fun _ => true |}
           arr_demo "developers.dat").
  - split; simpl; lia.
  - reflexivity.
Defined.

(** X22: what [loadDevelopersFromFile] does with the file it is given. A
    name without a file gives the null pointer and the error message. A
    file whose count is not negative gives an array whose size and
    capacity are the count and whose records are the blocks of the file,
    at most count of them; this array keeps the invariant exactly when the
    file holds at least count blocks: after a short read the size exceeds
    the number of records read. *)
Theorem loadDevelopersFromFile_cases (fs : FS) (filename : string) :
  (fs_files fs !! filename = None ->
   loadDevelopersFromFile fs filename = Ret (None, [IoReadError filename])) /\
  (forall file, fs_files fs !! filename = Some file -> 0 <= snap_count file ->
     exists arr,
       loadDevelopersFromFile fs filename = Ret (Some arr, [IoLoaded filename]) /\
       arr_size arr = snap_count file /\
       arr_capacity arr = snap_count file /\
       arr_developers arr = take (Z.to_nat (snap_count file)) (snap_blocks file) /\
       (wf_array arr <-> snap_count file <= Z.of_nat (length (snap_blocks file))) /\
       (Z.of_nat (length (snap_blocks file)) < snap_count file ->
        Z.of_nat (length (arr_developers arr)) < arr_size arr)).
Proof.
  unfold loadDevelopersFromFile. split.
  - intros ->. reflexivity.
  - intros file -> Hcount.
    destruct (Z.ltb_spec (snap_count file) 0); [lia|].
    eexists. split; [reflexivity|]. simpl. conj; trivial.
    + unfold wf_array. simpl. rewrite length_take. lia.
    + rewrite length_take. lia.
Qed.

Lemma loadDevelopersFromFile_cases_witness :
  exists arr,
    loadDevelopersFromFile
      {| fs_files := {[ "developers.dat" := {| snap_count := 3; snap_blocks := [dev_ok] |} ]};
         fs_writable := fun _ => true |} "developers.dat" =
      Ret (Some arr, [IoLoaded "developers.dat"]) /\
    arr_size arr = 3 /\ arr_capacity arr = 3 /\
    arr_developers arr = take (Z.to_nat 3) [dev_ok] /\
    (wf_array arr <-> 3 <= Z.of_nat (length [dev_ok])) /\
    (Z.of_nat (length [dev_ok]) < 3 ->
     Z.of_nat (length (arr_developers arr)) < arr_size arr).
Proof.
  apply (proj2 (loadDevelopersFromFile_cases
                  {| fs_files := {[ "developers.dat" :=
                                      {| snap_count := 3; snap_blocks := [dev_ok] |} ]};
                     fs_writable := fun _ => true |} "developers.dat")
           {| snap_count := 3; snap_blocks := [dev_ok] |}).
  - simpl. apply lookup_singleton_eq.
  - simpl. lia.
Defined.

(** ** Traversal, and [quickSort] on a range *)

Lemma display_events_lookup (chain : list Developer) :
  forall (index : Z) (k : nat),
    display_events chain index !! k = EvDisplay (index + Z.of_nat k) <$> chain !! k.
Proof.
  induction chain as [|d chain IH]; intros index k; simpl; [now destruct k|].
  destruct k as [|k]; simpl.
  - now rewrite Z.add_0_r.
  - rewrite IH. replace (index + 1 + Z.of_nat k) with (index + Z.pos (Pos.of_succ_nat k)) by lia.
    reflexivity.
Qed.

(** X23: [displayDevelopers] works on every list, the empty one included:
    it prints the header and then one entry for each node, from the head
    on; the entry of the node at distance [k] from the head carries the
    position [k + 1] and the record of the node, and nothing else is
    printed. *)
Theorem displayDevelopers_entries (l : LinkedList) (out : list event) :
  exists entries,
    displayDevelopers l out = Ret (tt, out ++ EvDisplayHeader :: entries) /\
    length entries = length (ll_head l) /\
    forall k : nat, entries !! k = EvDisplay (Z.of_nat k + 1) <$> ll_head l !! k.
Proof.
  exists (display_events (ll_head l) 1). split; [|split].
  - unfold displayDevelopers. run_M.
    rewrite displayDevelopers_loop_run. now rewrite <- app_assoc.
  - generalize 1. induction (ll_head l) as [|d chain IH]; intros index; simpl; auto.
  - intros k. rewrite display_events_lookup. now rewrite Z.add_comm.
Qed.

(** X24: [quickSort] on a range [low..high] that lies inside the array and
    holds no NaN salary: with a recursion depth of [high - low] or more it
    returns an array that is a permutation of the one before, has the
    salaries of the range in non-increasing order, and is unchanged outside
    the range. *)
Theorem quickSort_range (arr : list Developer) (low high : Z) :
  0 <= low -> high < Z.of_nat (length arr) -> seg_all sal_ok arr low high ->
  exists arr',
    (forall fuel, high - low <= Z.of_nat fuel -> quickSort fuel arr low high = Ret arr') /\
    sorted_seg arr' low high /\
    arr' ≡ₚ arr /\
    (forall k, ~ (low <= k <= high) -> lkp arr' k = lkp arr k).
Proof.
  intros Hlow Hhigh Hok.
  destruct (quickSort_spec (Z.to_nat (high - low)) arr low high Hlow Hhigh ltac:(lia) Hok)
    as (arr' & Hq & Hw & Hs).
  destruct (quickSort_safe (Z.to_nat (high - low)) arr low high Hlow Hhigh ltac:(lia))
    as (arr2 & Hq2 & _ & Hperm).
  rewrite Hq in Hq2. injection Hq2 as <-.
  exists arr'. conj; trivial; [|apply Hw].
  intros fuel Hf. rewrite <- Hq. apply quickSort_more_fuel; [lia|].
  rewrite Hq. discriminate.
Qed.

Lemma quickSort_range_witness :
  exists arr',
    (forall fuel, 2 - 1 <= Z.of_nat fuel ->
       quickSort fuel (arr_developers arr_demo) 1 2 = Ret arr') /\
    sorted_seg arr' 1 2 /\
    arr' ≡ₚ arr_developers arr_demo /\
    (forall k, ~ (1 <= k <= 2) -> lkp arr' k = lkp (arr_developers arr_demo) k).
Proof.
  apply (quickSort_range (arr_developers arr_demo) 1 2); [lia | simpl; lia |].
  intros k d Hk Hd. apply lkp_Some in Hd as Hb.
  assert (k = 1 \/ k = 2) as [-> | ->] by lia;
    simpl in Hd; injection Hd as <-; reflexivity.
Defined.

(** X25: the bounds of [quickSort]. On a range with [low >= high] it
    returns the array as it is, without an access. On a range with
    [low < high] and a recursion depth of [high - low] or more it returns
    an array exactly when the range lies inside the array; when [low] is
    negative or [high] is not below the length it reads outside the
    array. *)
Theorem quickSort_bounds (arr : list Developer) (low high : Z) (fuel : nat) :
  (high <= low -> quickSort fuel arr low high = Ret arr) /\
  (low < high -> high - low <= Z.of_nat fuel ->
   ((exists arr', quickSort fuel arr low high = Ret arr') <->
    0 <= low /\ high < Z.of_nat (length arr)) /\
   (~ (0 <= low /\ high < Z.of_nat (length arr)) ->
    quickSort fuel arr low high = Undef)).
Proof.
  split.
  - intros Hle. destruct fuel; simpl; destruct (Z.ltb_spec low high); trivial; lia.
  - intros Hlt Hf.
    assert (~ (0 <= low /\ high < Z.of_nat (length arr)) ->
            quickSort fuel arr low high = Undef) as Hundef.
    { intros Hout. destruct fuel as [|fuel]; [lia|]. simpl.
      destruct (Z.ltb_spec low high); [|lia].
      unfold partition. rewrite rd_lkp.
      destruct (lkp arr high) as [ph|] eqn:Hph; [|reflexivity]. simpl.
      apply lkp_Some in Hph. unfold in_bounds in Hph.
      assert (low < 0) as Hneg by lia.
      destruct (Z.to_nat (high - low)) as [|n] eqn:Hn; [lia|]. simpl.
      destruct (Z.leb_spec low (high - 1)); [|lia].
      rewrite rd_lkp, lkp_None by (unfold in_bounds; lia). reflexivity. }
    split; trivial. split.
    + intros [arr' Hq].
      destruct (Z_le_dec 0 low); [destruct (Z_lt_dec high (Z.of_nat (length arr)))|]; auto;
        rewrite Hundef in Hq by lia; discriminate.
    + intros [H1 H2].
      destruct (quickSort_safe fuel arr low high H1 H2 Hf) as (arr' & Hq & _). eauto.
Qed.

Lemma quickSort_bounds_witness :
  ((exists arr', quickSort 4 (arr_developers arr_demo) 0 4 = Ret arr') <->
   0 <= 0 /\ 4 < Z.of_nat (length (arr_developers arr_demo))) /\
  (~ (0 <= 0 /\ 4 < Z.of_nat (length (arr_developers arr_demo))) ->
   quickSort 4 (arr_developers arr_demo) 0 4 = Undef).
Proof.
  apply (proj2 (quickSort_bounds (arr_developers arr_demo) 0 4 4)); simpl; lia.
Defined.
